(** * Output processing of the behavioural test steps

    A shallow embedding of [features/src/process_output.py] and of the
    parts of [features/steps/notification_service.py] that validate step
    parameters, check exit codes, decode captured output and match log
    lines, together with the properties the specification states about
    them.

    Python values are modelled as follows:
    - a [str] is the list of its Unicode code points ([N]);
    - a [bytes] object is a list of [Byte.byte];
    - an exception is a constructor of [exn]; a function that may raise
      returns a [result];
    - the scenario context, an object whose attributes are set on the fly,
      is a finite map from attribute names to values. *)

From Stdlib Require Import NArith ZArith Ascii String DecimalString.
From Stdlib.Strings Require Import Byte.
From stdpp Require Import base option list strings gmap.

Local Open Scope N_scope.

(** ** Text *)

Definition codepoint := N.
Definition str := list codepoint.
Definition bytes := list Byte.byte.

(** A literal of the source, written with ASCII characters only. *)
Definition lit (s : string) : str :=
  map N_of_ascii (list_ascii_of_string s).

Definition LF : codepoint := 10.
Definition SPACE : codepoint := 32.
Definition DQUOTE : codepoint := 34.

(** [startswith s p] is [s.startswith(p)]. *)
Fixpoint startswith (s p : str) {struct p} : bool :=
  match p, s with
  | [], _ => true
  | _ :: _, [] => false
  | a :: p', b :: s' => (a =? b) && startswith s' p'
  end.

(** [str_contains s sub] is [sub in s]. *)
Fixpoint str_contains (s sub : str) : bool :=
  startswith s sub ||
  match s with
  | [] => false
  | _ :: s' => str_contains s' sub
  end.

(** [s.replace(old, new)] scans [s] from the left; where [old] starts it
    emits [new] and resumes right after the occurrence, elsewhere it copies
    one character.  [skip] counts the characters of the occurrence still to
    be passed over. *)
Fixpoint replace_from (old new : str) (skip : nat) (s : str) : str :=
  match s with
  | [] => []
  | c :: s' =>
      match skip with
      | S k => replace_from old new k s'
      | O =>
          if startswith (c :: s') old
          then new ++ replace_from old new (length old - 1) s'
          else c :: replace_from old new O s'
      end
  end.

(** With an empty [old], Python puts [new] before every character and at
    the end. *)
Definition str_replace (s old new : str) : str :=
  match old with
  | [] => new ++ flat_map (fun c => c :: new) s
  | _ :: _ => replace_from old new O s
  end.

(** [s.split(sep)]: the pieces of [s] between the occurrences of [sep],
    found by the same left-to-right scan.  The piece being read is the head
    of the result. *)
Definition push_char (c : codepoint) (pieces : list str) : list str :=
  match pieces with
  | [] => [[c]]
  | x :: l => (c :: x) :: l
  end.

Fixpoint split_from (sep : str) (skip : nat) (s : str) : list str :=
  match s with
  | [] => [[]]
  | c :: s' =>
      match skip with
      | S k => split_from sep k s'
      | O =>
          if startswith (c :: s') sep
          then [] :: split_from sep (length sep - 1) s'
          else push_char c (split_from sep O s')
      end
  end.

(** [sep.join(pieces)]. *)
Fixpoint str_join (sep : str) (pieces : list str) : str :=
  match pieces with
  | [] => []
  | [x] => x
  | x :: l => x ++ sep ++ str_join sep l
  end.

(** ** Occurrences of a pattern *)

Definition occurs (p s : str) : Prop := exists u v, s = u ++ p ++ v.

(** A pattern is unbordered when no proper non-empty prefix of it is also a
    suffix of it: two occurrences of such a pattern never overlap. *)
Definition unbordered (p : str) : Prop :=
  forall u v w, p = u ++ v -> p = v ++ w -> v = [] \/ u = [].

(** ** Exceptions

    The exceptions the modelled code can raise.  An [assert] without
    message raises [AssertionError] with an empty message. *)

Inductive exn :=
| AssertionError (msg : str)
| ValueError (msg : str)
| TypeError
| AttributeError
| UnicodeDecodeError.

Inductive result (A : Type) :=
| Ok (a : A)
| Raise (e : exn).
Arguments Ok {A} a.
Arguments Raise {A} e.

Definition bind {A B} (r : result A) (k : A -> result B) : result B :=
  match r with
  | Ok a => k a
  | Raise e => Raise e
  end.

Notation "'let!' x ':=' r 'in' k" := (bind r (fun x => k))
  (at level 10, x pattern, r at level 100, k at level 200).
Notation "'do!' r 'in' k" := (bind r (fun _ => k))
  (at level 10, r at level 100, k at level 200).

(** [assert cond, msg]: the message is built only when the condition
    fails, and building it may itself raise. *)
Definition assert (cond : bool) (msg : result str) : result unit :=
  if cond then Ok tt else let! m := msg in Raise (AssertionError m).

(** [s.split(sep)] raises [ValueError] on an empty separator. *)
Definition str_split (s sep : str) : result (list str) :=
  match sep with
  | [] => Raise (ValueError (lit "empty separator"))
  | _ :: _ => Ok (split_from sep O s)
  end.

(** ** [process_output.py] *)

Definition COVERAGE_MESSAGE : str :=
  lit "warning: GOCOVERDIR not set, no coverage data emitted".

Definition filter_coverage_message (output : str) : str :=
  str_replace output (COVERAGE_MESSAGE ++ [LF]) [].

(** The list comprehension of [process_generated_output] that drops the
    coverage message from the lines of the output:
    [[line for line in output if line != COVERAGE_MESSAGE]]. *)
Definition normalize_line_sequence (output : list str) : list str :=
  filter (fun line => line <> COVERAGE_MESSAGE) output.

(** ** Decoding bytes

    [stdout.decode("utf-8")] with the default strict error handling: the
    well-formed byte sequences of UTF-8 (RFC 3629) are decoded, anything
    else (a stray continuation byte, an overlong form, a surrogate, a value
    above U+10FFFF, a truncated sequence) raises [UnicodeDecodeError]. *)

Definition in_range (lo hi n : N) : bool := (lo <=? n) && (n <=? hi).

Definition is_cont (n : N) : bool := in_range 128 191 n.

Fixpoint utf8_scan (bs : bytes) : option str :=
  match bs with
  | [] => Some []
  | b0 :: r0 =>
      let n0 := Byte.to_N b0 in
      if n0 <? 128 then cons n0 <$> utf8_scan r0
      else if n0 <? 194 then None
      else if n0 <? 224 then
        match r0 with
        | b1 :: r1 =>
            let n1 := Byte.to_N b1 in
            if is_cont n1
            then cons ((n0 - 192) * 64 + (n1 - 128)) <$> utf8_scan r1
            else None
        | _ => None
        end
      else if n0 <? 240 then
        match r0 with
        | b1 :: b2 :: r2 =>
            let n1 := Byte.to_N b1 in
            let n2 := Byte.to_N b2 in
            let lo := if n0 =? 224 then 160 else 128 in
            let hi := if n0 =? 237 then 159 else 191 in
            if in_range lo hi n1 && is_cont n2
            then cons (((n0 - 224) * 64 + (n1 - 128)) * 64 + (n2 - 128))
                   <$> utf8_scan r2
            else None
        | _ => None
        end
      else if n0 <? 245 then
        match r0 with
        | b1 :: b2 :: b3 :: r3 =>
            let n1 := Byte.to_N b1 in
            let n2 := Byte.to_N b2 in
            let n3 := Byte.to_N b3 in
            let lo := if n0 =? 240 then 144 else 128 in
            let hi := if n0 =? 244 then 143 else 191 in
            if in_range lo hi n1 && is_cont n2 && is_cont n3
            then cons ((((n0 - 240) * 64 + (n1 - 128)) * 64 + (n2 - 128)) * 64
                       + (n3 - 128)) <$> utf8_scan r3
            else None
        | _ => None
        end
      else None
  end.

Definition utf8_decode (b : bytes) : result str :=
  match utf8_scan b with
  | Some text => Ok text
  | None => Raise UnicodeDecodeError
  end.

(** The UTF-8 encoding itself, as the standard defines it: the yardstick
    for [utf8_decode]. *)
Definition scalar_value (c : codepoint) : Prop :=
  c < 55296 \/ (57344 <= c /\ c < 1114112).

Definition byte_of (n : N) : Byte.byte := default Byte.x00 (Byte.of_N n).

Definition utf8_encode_cp (c : codepoint) : bytes :=
  if c <? 128 then [byte_of c]
  else if c <? 2048 then
    [byte_of (192 + c / 64); byte_of (128 + c mod 64)]
  else if c <? 65536 then
    [byte_of (224 + c / 4096); byte_of (128 + (c / 64) mod 64);
     byte_of (128 + c mod 64)]
  else
    [byte_of (240 + c / 262144); byte_of (128 + (c / 4096) mod 64);
     byte_of (128 + (c / 64) mod 64); byte_of (128 + c mod 64)].

Definition utf8_encode (text : str) : bytes := flat_map utf8_encode_cp text.

(** ** Python values *)

(** What a step parameter can be. *)
Inductive value :=
| VNone
| VInt (z : Z)
| VStr (s : str).

(** [str(z)] for an [int]. *)
Definition str_of_Z (z : Z) : str :=
  lit (NilEmpty.string_of_int (Z.to_int z)).

(** [f"{type(v)}"] and [f"{v}"]. *)
Definition format_type (v : value) : str :=
  match v with
  | VNone => lit "<class 'NoneType'>"
  | VInt _ => lit "<class 'int'>"
  | VStr _ => lit "<class 'str'>"
  end.

Definition format_value (v : value) : str :=
  match v with
  | VNone => lit "None"
  | VInt z => str_of_Z z
  | VStr s => s
  end.

(** The attributes the steps store on the scenario context. *)
Inductive attr :=
| ANone
| AInt (z : Z)
| ABytes (b : bytes)
| ALines (l : list str).

(** The finished process handed to the steps: what [communicate()] returns
    (each stream is [None] or [bytes]) and the exit status. *)
Record popen := {
  communicate : option bytes * option bytes;
  returncode : Z
}.

Definition attr_of_stream (o : option bytes) : attr :=
  match o with
  | Some b => ABytes b
  | None => ANone
  end.

(** Truth value of the [return_code] argument: [None] and [0] are false. *)
Definition truthy (return_code : option Z) : bool :=
  match return_code with
  | None => false
  | Some z => negb (z =? 0)%Z
  end.

Definition eq_code (rc : Z) (return_code : option Z) : bool :=
  match return_code with
  | None => false
  | Some z => (rc =? z)%Z
  end.

Definition process_generated_output
    (context : gmap string attr) (out : option popen)
    (return_code : option Z) : result (gmap string attr) :=
  match out with
  | None => Raise (AssertionError [])
  | Some out =>
      let '(stdout, stderr) := communicate out in
      do! assert (bool_decide (stderr = None)) (Ok (lit "Error during check")) in
      match stdout with
      | None => Raise (AssertionError (lit "No output from process"))
      | Some stdout =>
          do! (if truthy return_code
               then assert ((returncode out =? 0)%Z
                            || eq_code (returncode out) return_code)
                      (Ok (lit "Return code is " ++ str_of_Z (returncode out)))
               else Ok tt) in
          let! text := utf8_decode stdout in
          let! output := str_split text [LF] in
          let output := normalize_line_sequence output in
          Ok (<["return_code" := AInt (returncode out)]>
              (<["stderr" := attr_of_stream stderr]>
               (<["stdout" := ABytes stdout]>
                (<["output" := ALines output]> context))))
      end
  end.

(** ** [notification_service.py] *)

(** [str.isdigit] and [str.isalpha] hold when the string is not empty and
    every character is in the class.  The classes of single characters come
    from the Unicode database of the interpreter, which is taken as given. *)
Section classes.
Variables isdigit_cp isalpha_cp : codepoint -> bool.

Definition str_isdigit (s : str) : bool :=
  negb (bool_decide (s = [])) && forallb isdigit_cp s.

Definition str_isalpha (s : str) : bool :=
  negb (bool_decide (s = [])) && forallb isalpha_cp s.

Definition parse_max_age (max_age : value) : result value :=
  match max_age with
  | VStr s =>
      let! items := str_split (str_replace s [DQUOTE] []) [SPACE] in
      do! assert (length items =? 2)%nat
            (Ok (lit "expected max_age to have 2 parts: the value and the unit. Got "
                 ++ s)) in
      do! assert (str_isdigit (items !!! 0%nat))
            (Ok (lit "expected max_age to start with an integer, got "
                 ++ items !!! 0%nat)) in
      do! assert (str_isalpha (items !!! 1%nat))
            (Ok (lit "expected max_age to contain an alpha string for the max_age unit, got "
                 ++ items !!! 1%nat)) in
      Ok max_age
  | _ =>
      Raise (AssertionError
               (lit "expected max_age to be a string with 2 parts: the value and the unit. Got "
                ++ format_type max_age ++ lit " - " ++ format_value max_age))
  end.

(** Exactly two tokens separated by one space, the first entirely digits
    and the second entirely alphabetic (neither of them empty, as
    [str.isdigit] and [str.isalpha] require). *)
Definition two_tokens (s : str) : Prop :=
  exists t1 t2,
    s = t1 ++ SPACE :: t2 /\ (SPACE ∉ t1) /\ (SPACE ∉ t2) /\
    t1 <> [] /\ Forall (fun c => isdigit_cp c = true) t1 /\
    t2 <> [] /\ Forall (fun c => isalpha_cp c = true) t2.
End classes.

(** The classes on ASCII characters, where they are the decimal digits and
    the letters of the Latin alphabet. *)
Definition ascii_isdigit (c : codepoint) : bool := in_range 48 57 c.
Definition ascii_isalpha (c : codepoint) : bool :=
  in_range 65 90 c || in_range 97 122 c.

Definition process_ccx_notification_service_output
    (context : gmap string attr) (out : option popen)
    (return_codes : list Z) : result (gmap string attr) :=
  match out with
  | None => Raise (AssertionError [])
  | Some out =>
      let '(stdout, stderr) := communicate out in
      do! assert (bool_decide (stderr = None)) (Ok (lit "Error during check")) in
      match stdout with
      | None => Raise (AssertionError (lit "No output from application"))
      | Some stdout =>
          do! assert ((returncode out =? 0)%Z
                      || bool_decide (returncode out ∈ return_codes))
                (let! logs := utf8_decode stdout in
                 Ok (lit "Return code is " ++ str_of_Z (returncode out)
                     ++ lit ". Check the logs:" ++ [LF] ++ lit "vvvvv" ++ [LF]
                     ++ logs ++ [LF] ++ lit "^^^^^" ++ [LF])) in
          let! text := utf8_decode stdout in
          let! output := str_split text [LF] in
          Ok (<["returncode" := AInt (returncode out)]>
              (<["stderr" := attr_of_stream stderr]>
               (<["stdout" := ABytes stdout]>
                (<["output" := ALines output]> context))))
      end
  end.

(** A row of the table of the step "the logs should match". *)
Record row := {
  log : str;
  contains : str
}.

Definition check_row (output : str) (r : row) : result unit :=
  if bool_decide (contains r = lit "yes") then
    assert (str_contains output (log r))
      (Ok (lit "log " ++ [DQUOTE] ++ log r ++ [DQUOTE]
           ++ lit " not found in output:" ++ [LF] ++ output))
  else if bool_decide (contains r = lit "no") then
    assert (negb (str_contains output (log r)))
      (Ok (lit "log " ++ [DQUOTE] ++ log r ++ [DQUOTE]
           ++ lit " found in output:" ++ [LF] ++ output))
  else
    Raise (ValueError
             (lit "option " ++ [DQUOTE] ++ contains r ++ [DQUOTE]
              ++ lit " is other than " ++ [DQUOTE] ++ lit "yes" ++ [DQUOTE]
              ++ lit " or " ++ [DQUOTE] ++ lit "no" ++ [DQUOTE])).

(** What a well-formed row asks for holds of the output. *)
Definition row_holds (output : str) (r : row) : Prop :=
  (contains r = lit "yes" /\ occurs (log r) output) \/
  (contains r = lit "no" /\ ~ occurs (log r) output).

(** The [for] loop over the rows stops at the first row that raises. *)
Fixpoint check_rows (output : str) (rows : list row) : result unit :=
  match rows with
  | [] => Ok tt
  | r :: rest => do! check_row output r in check_rows output rest
  end.

(** [context.table] is [None] when the step has no table. *)
Definition check_logs (context : gmap string attr)
    (table : option (list row)) : result unit :=
  match context !! "stdout" with
  | Some (ABytes stdout) =>
      let! output := utf8_decode stdout in
      match table with
      | Some rows => check_rows output rows
      | None => Raise TypeError
      end
  | _ => Raise AttributeError
  end.

(** Every occurrence of [p] in [s] is at the start of [s] or right after
    the terminator [t]. *)
Definition at_line_starts (p : str) (t : codepoint) (s : str) : Prop :=
  forall u v, s = u ++ p ++ v -> u = [] \/ exists u', u = u' ++ [t].

(** Every occurrence of the coverage message with its line terminator
    starts a line of [s]: it is at the start of the text or right after a
    line terminator.  [at_line_start] tells whether the scan is there. *)
Fixpoint marker_lines_aligned_from (at_line_start : bool) (s : str) : bool :=
  match s with
  | [] => true
  | c :: s' =>
      (negb (startswith (c :: s') (COVERAGE_MESSAGE ++ [LF])) || at_line_start)
      && marker_lines_aligned_from (c =? LF) s'
  end.

Definition marker_lines_aligned (s : str) : bool :=
  marker_lines_aligned_from true s.

(** ** Removing occurrences, stated by positions

    The specification describes the result of the filter without reference
    to a scan: the characters of the input that lie inside an occurrence of
    the pattern are dropped, every other character is kept, in order. *)

(** Position [j] of [s] lies inside an occurrence of [p]. *)
Definition covered (p s : str) (j : nat) : bool :=
  existsb (fun i => startswith (drop i s) p && (j <? i + length p)%nat)
          (seq 0 (S j)).

Definition erase_occurrences (p s : str) : str :=
  concat (imap (fun j c => if covered p s j then [] else [c]) s).


(** ** Further steps of [notification_service.py] *)

Definition TAB : codepoint := 9.
Definition LBRACE : codepoint := 123.

(** [x] is one of the lines of [text]: it holds no line terminator and
    stands in [text] between two line boundaries. *)
Definition is_line (x text : str) : Prop :=
  (LF ∉ x) /\
  exists u v, text = u ++ x ++ v /\
              (u = [] \/ exists u', u = u' ++ [LF]) /\
              (v = [] \/ exists v', v = LF :: v').

(** Reading the attribute [name] of the context; an attribute that was
    never set raises [AttributeError]. *)
Definition get_attr (context : gmap string attr) (name : string)
    : result attr :=
  match context !! name with
  | Some a => Ok a
  | None => Raise AttributeError
  end.

Definition is_None (a : attr) : bool :=
  match a with
  | ANone => true
  | _ => false
  end.

(** [isinstance(a, list)]. *)
Definition is_list (a : attr) : bool :=
  match a with
  | ALines _ => true
  | _ => false
  end.

Definition lines_of (a : attr) : list str :=
  match a with
  | ALines l => l
  | _ => []
  end.

(** [a.decode("utf-8")]: only [bytes] has the method. *)
Definition decode_attr (a : attr) : result str :=
  match a with
  | ABytes b => utf8_decode b
  | _ => Raise AttributeError
  end.

(** The lines the help of the service must show. *)
Definition expected_output : list str :=
  [ lit "  -cleanup-on-startup";
    lit "  -instant-reports";
    lit "  -max-age string";
    lit "  -new-reports-cleanup";
    lit "  -old-reports-cleanup";
    lit "  -print-new-reports-for-cleanup";
    lit "  -print-old-reports-for-cleanup";
    lit "  -show-authors";
    lit "  -show-configuration";
    lit "  -show-version";
    lit "  -weekly-reports" ].

(** How the interpreter prints a [bytes] object and a list of strings in an
    f-string is taken as given. *)
Section formats.
Variable format_bytes : bytes -> str.
Variable format_lines : list str -> str.

(** [f"{a}"]. *)
Definition format_attr (a : attr) : str :=
  match a with
  | ANone => lit "None"
  | AInt z => str_of_Z z
  | ABytes b => format_bytes b
  | ALines l => format_lines l
  end.

(** The loop [for item in expected_output: assert item in context.output]. *)
Fixpoint assert_items_in (output : attr) (items : list str) : result unit :=
  match items with
  | [] => Ok tt
  | item :: rest =>
      do! assert (bool_decide (item ∈ lines_of output))
            (Ok (item ++ lit " not in " ++ format_attr output)) in
      assert_items_in output rest
  end.

Definition check_help_from_ccx_notification_service
    (context : gmap string attr) : result unit :=
  let! output := get_attr context "output" in
  do! assert (negb (is_None output)) (Ok []) in
  do! assert (is_list output) (Ok (lit "wrong type of output")) in
  assert_items_in output expected_output.

Definition check_version_from_ccx_notification_service
    (context : gmap string attr) : result unit :=
  let! output := get_attr context "output" in
  do! assert (negb (is_None output)) (Ok []) in
  do! assert (is_list output) (Ok (lit "wrong type of output")) in
  assert (bool_decide (lit "Notification service version 1.0" ∈ lines_of output))
    (Ok (lit "Caught output: " ++ format_attr output)).

Definition check_authors_info_from_ccx_notification_service
    (context : gmap string attr) : result unit :=
  let! output := get_attr context "output" in
  do! assert (negb (is_None output)) (Ok []) in
  do! assert (is_list output) (Ok (lit "wrong type of output")) in
  assert (bool_decide (lit "Pavel Tisnovsky, Papa Bakary Camara, Red Hat Inc."
                       ∈ lines_of output))
    (Ok (lit "Caught output: " ++ format_attr output)).

(** The message of [check_status_code] reads both attributes again and
    decodes the captured output. *)
Definition check_status_code (context : gmap string attr)
    (expected_code : Z) : result unit :=
  let! returncode := get_attr context "returncode" in
  assert (match returncode with
          | AInt z => (z =? expected_code)%Z
          | _ => false
          end)
    (let! returncode := get_attr context "returncode" in
     let! stdout := get_attr context "stdout" in
     let! logs := decode_attr stdout in
     Ok (lit "Return code is " ++ format_attr returncode ++ lit ", but "
         ++ str_of_Z expected_code ++ lit " is expected. Check the logs:"
         ++ [LF] ++ logs)).
End formats.

(** The opening of the steps that search the standard output:
    [assert context.stdout is not None] and
    [stdout = context.stdout.decode("utf-8").replace("\t", "    ")]. *)
Definition read_stdout (context : gmap string attr) : result str :=
  let! stdout := get_attr context "stdout" in
  do! assert (negb (is_None stdout)) (Ok []) in
  let! text := decode_attr stdout in
  Ok (str_replace text [TAB] (lit "    ")).

(** [assert needle in stdout, f"Caught output: {stdout}"]. *)
Definition assert_in (needle stdout : str) : result unit :=
  assert (str_contains stdout needle) (Ok (lit "Caught output: " ++ stdout)).

Definition check_print_new_reports_for_cleanup
    (context : gmap string attr) (max_age : str) : result unit :=
  let! stdout := read_stdout context in
  do! assert_in (lit "PrintReportsForCleanup operation") stdout in
  do! assert_in (lit "FROM new_reports") stdout in
  assert_in max_age stdout.

Definition check_new_reports_cleanup
    (context : gmap string attr) (max_age : str) : result unit :=
  let! stdout := read_stdout context in
  do! assert_in (lit "Cleanup operation for all organizations") stdout in
  do! assert_in (lit "FROM new_reports") stdout in
  do! assert_in max_age stdout in
  assert_in (lit "Cleanup `new_reports` finished") stdout.

Definition check_print_old_reports_for_cleanup
    (context : gmap string attr) (max_age : Z) (age_unit : str)
    : result unit :=
  let! stdout := read_stdout context in
  do! assert_in (lit "PrintReportsForCleanup operation") stdout in
  do! assert_in (lit "FROM reported") stdout in
  assert_in (str_of_Z max_age ++ lit " " ++ age_unit) stdout.

Definition check_old_reports_cleanup
    (context : gmap string attr) (max_age : Z) (age_unit : str)
    : result unit :=
  let! stdout := read_stdout context in
  do! assert_in (lit "Cleanup operation for all organizations") stdout in
  do! assert_in (lit "FROM reported") stdout in
  do! assert_in (str_of_Z max_age ++ lit " " ++ age_unit) stdout in
  assert_in (lit "Cleanup `reported` finished") stdout.

(** A row of the table of the step "I should see old reports from ...". *)
Record cluster_row := {
  org_id : str;
  account_number : str;
  cluster_name : str
}.

Fixpoint assert_clusters_in (stdout : str) (rows : list cluster_row)
    : result unit :=
  match rows with
  | [] => Ok tt
  | r :: rest =>
      do! assert_in (org_id r) stdout in
      do! assert_in (account_number r) stdout in
      do! assert_in (cluster_name r) stdout in
      assert_clusters_in stdout rest
  end.

Definition check_old_reports_in_table
    (context : gmap string attr) (table : str)
    (rows : option (list cluster_row)) : result unit :=
  let! stdout := read_stdout context in
  do! assert_in (lit "Old report from `" ++ table ++ lit "` table") stdout in
  match rows with
  | Some rows => assert_clusters_in stdout rows
  | None => Raise TypeError
  end.

Definition check_no_old_reports_in_table
    (context : gmap string attr) (table : str) : result unit :=
  let! stdout := read_stdout context in
  do! assert (negb (str_contains stdout
                      (lit "Old report from `" ++ table ++ lit "` table")))
        (Ok (lit "Caught output: " ++ stdout)) in
  assert (negb (str_contains stdout (lit "ClusterName"))) (Ok []).

Definition check_cleaned_items_on_standard_output
    (context : gmap string attr) (table max_age : str) : result unit :=
  let! stdout := read_stdout context in
  do! assert_in (lit "Cleanup operation for all organizations") stdout in
  do! assert_in (lit "Cleanup `" ++ table ++ lit "` finished") stdout in
  assert_in max_age stdout.

(** *** Events read from the message bus *)

(** The command line of the tool that reads the last [num_event] messages
    of the topic. *)
Definition kafkacat_params (num_event : Z) : list str :=
  [ lit "kafkacat"; lit "-b"; lit "localhost:9092"; lit "-C"; lit "-t";
    lit "platform.notifications.ingress"; lit "-c"; str_of_Z num_event;
    lit "-o"; str_of_Z (- num_event); lit "-e" ].

(** [i and i[0] == "{"]. *)
Definition starts_with_brace (i : str) : bool :=
  match i with
  | [] => false
  | c :: _ => c =? LBRACE
  end.

(** [run] stands for [subprocess.Popen] with the two streams merged: the
    finished process for a command line.  What the function prints is left
    out. *)
Definition get_events_kafka (run : list str -> option popen)
    (num_event : Z) : result (list str) :=
  match run (kafkacat_params num_event) with
  | None => Raise (AssertionError [])
  | Some out =>
      let '(stdout, _) := communicate out in
      let! output := decode_attr (attr_of_stream stdout) in
      if str_contains output (lit "Unknown topic or partition") then Ok []
      else
        let! lines := str_split output [LF] in
        Ok (filter (fun i => starts_with_brace i = true) lines)
  end.

Definition count_notification_events_kafka
    (run : list str -> option popen) (num_event : Z) : result unit :=
  let! events := get_events_kafka run num_event in
  assert (Z.of_nat (length events) =? num_event)%Z
    (Ok (lit "Retrieved " ++ str_of_Z (Z.of_nat (length events))
         ++ lit " events when " ++ str_of_Z num_event ++ lit " was expected")).

(** *** Starting the service *)

(** The attributes the steps that prepare a run set on the context, beside
    the ones written when the output of a process is stored ([attrs]).
    Each is [None] as long as the attribute does not exist. *)
Record scenario := {
  attrs : gmap string attr;
  max_age : option str;
  cleanup_on_startup : option str;
  return_codes : option (list Z)
}.

Definition store_max_age_flag (context : scenario) (age : str) : scenario :=
  {| attrs := attrs context;
     max_age := Some age;
     cleanup_on_startup := cleanup_on_startup context;
     return_codes := return_codes context |}.

Definition store_cleanup_flag (context : scenario) : scenario :=
  {| attrs := attrs context;
     max_age := max_age context;
     cleanup_on_startup := Some (lit "--cleanup-on-startup");
     return_codes := return_codes context |}.

(** A row of the table of environment variables: the name is in the column
    "val" and the value in the column "var". *)
Record env_row := {
  val : str;
  var : str
}.

(** [env = os.environ.copy()] followed by the loop
    [for row in context.table: env[row["val"]] = row["var"]]. *)
Definition start_env (environ : gmap str str)
    (table : option (list env_row)) : gmap str str :=
  match table with
  | None => environ
  | Some rows =>
      foldl (fun env row => <[val row := var row]> env) environ rows
  end.

Definition start_params (context : scenario) (flag : str) : list str :=
  [lit "ccx-notification-service"; flag]
  ++ match max_age context with
     | Some age => [lit "--max-age=" ++ age]
     | None => []
     end
  ++ match cleanup_on_startup context with
     | Some option => [option]
     | None => []
     end.

(** [spawn] stands for [subprocess.Popen]: the finished process for a
    command line and an environment.  The default return codes are stored
    on the context before the process is started, and stay there when the
    processing of its output raises: the function returns the context it
    leaves and the outcome. *)
Definition start_ccx_notification_service_with_flag
    (spawn : list str -> gmap str str -> option popen)
    (environ : gmap str str) (context : scenario) (flag : str)
    (table : option (list env_row)) : scenario * result unit :=
  let params := start_params context flag in
  let codes :=
    match return_codes context with
    | Some codes => codes
    | None => [4; 5; 9]%Z
    end in
  let env := start_env environ table in
  let out := spawn params env in
  match out with
  | None =>
      ({| attrs := attrs context;
          max_age := max_age context;
          cleanup_on_startup := cleanup_on_startup context;
          return_codes := Some codes |},
       Raise (AssertionError []))
  | Some _ =>
      match process_ccx_notification_service_output (attrs context) out codes
      with
      | Ok saved =>
          ({| attrs := saved;
              max_age := max_age context;
              cleanup_on_startup := cleanup_on_startup context;
              return_codes := Some codes |},
           Ok tt)
      | Raise e =>
          ({| attrs := attrs context;
              max_age := max_age context;
              cleanup_on_startup := cleanup_on_startup context;
              return_codes := Some codes |},
           Raise e)
      end
  end.
(** * Properties *)

Lemma length_ind {A} (Q : list A -> Prop) :
  (forall s, (forall t, (length t < length s)%nat -> Q t) -> Q s) ->
  forall s, Q s.
Proof.
  intros step s. remember (length s) as n eqn:Hn. revert s Hn.
  induction n as [n IH] using lt_wf_ind. intros s ->.
  apply step. intros t Ht. by apply (IH (length t)).
Qed.

Lemma str_length_ind (Q : str -> Prop) :
  (forall s, (forall t, (length t < length s)%nat -> Q t) -> Q s) ->
  forall s, Q s.
Proof. apply length_ind. Qed.

Lemma startswith_prefix s p : startswith s p = true <-> p `prefix_of` s.
Proof.
  revert s. induction p as [|a p IH]; intros s; simpl.
  - split; [intros _; apply prefix_nil | reflexivity].
  - destruct s as [|b s].
    + split; [done | intros H; by apply prefix_nil_inv in H].
    + rewrite andb_true_iff, N.eqb_eq, IH. split.
      * intros [-> H]. by apply prefix_cons.
      * intros H. split; [by apply prefix_cons_inv_1 in H | by apply prefix_cons_inv_2 in H].
Qed.

Lemma startswith_app s p : startswith (p ++ s) p = true.
Proof. apply startswith_prefix. by apply prefix_app_r. Qed.

Lemma startswith_false s p : startswith s p = false <-> ~ p `prefix_of` s.
Proof. rewrite <- startswith_prefix. by destruct (startswith s p). Qed.

Lemma str_contains_occurs s sub : str_contains s sub = true <-> occurs sub s.
Proof.
  induction s as [|c s IH]; simpl.
  - rewrite orb_false_r, startswith_prefix. split.
    + intros [k ->]. by exists [], k.
    + intros (u & v & H). destruct u; [by exists v | done].
  - rewrite orb_true_iff, startswith_prefix, IH. split.
    + intros [[k ->] | (u & v & ->)]; [by exists [], k | by exists (c :: u), v].
    + intros (u & v & H). destruct u as [|c' u]; simpl in H.
      * left. by exists v.
      * right. injection H as -> ->. by exists u, v.
Qed.

Lemma occurs_dec p s : {occurs p s} + {~ occurs p s}.
Proof.
  destruct (str_contains s p) eqn:E.
  - left. by apply str_contains_occurs.
  - right. intros H. apply str_contains_occurs in H. congruence.
Qed.

(** ** The left-to-right scan of [replace] and [split] *)

Section scan.
Variables (P new : str).
Hypothesis P_nonempty : P <> [].

Lemma replace_from_skip n s :
  replace_from P new n s = replace_from P new 0 (drop n s).
Proof.
  revert n. induction s as [|c s IH]; intros [|n]; try reflexivity.
  simpl replace_from at 1. by rewrite IH.
Qed.

Lemma split_from_skip n s :
  split_from P n s = split_from P 0 (drop n s).
Proof.
  revert n. induction s as [|c s IH]; intros [|n]; try reflexivity.
  simpl split_from at 1. by rewrite IH.
Qed.

Lemma replace_hit r :
  replace_from P new 0 (P ++ r) = new ++ replace_from P new 0 r.
Proof.
  destruct P as [|o P'] eqn:E; [done|]. rewrite <- E at 1.
  change ((o :: P') ++ r) with (o :: (P' ++ r)). cbn [replace_from].
  replace (startswith (o :: P' ++ r) P) with true
    by (symmetry; subst P; apply (startswith_app r (o :: P'))).
  rewrite replace_from_skip. subst P.
  replace (length (o :: P') - 1)%nat with (length P') by (simpl; lia).
  by rewrite drop_app_length.
Qed.

Lemma split_hit r :
  split_from P 0 (P ++ r) = [] :: split_from P 0 r.
Proof.
  destruct P as [|o P'] eqn:E; [done|]. rewrite <- E at 1.
  change ((o :: P') ++ r) with (o :: (P' ++ r)). cbn [split_from].
  replace (startswith (o :: P' ++ r) P) with true
    by (symmetry; subst P; apply (startswith_app r (o :: P'))).
  rewrite split_from_skip. subst P.
  replace (length (o :: P') - 1)%nat with (length P') by (simpl; lia).
  by rewrite drop_app_length.
Qed.

Lemma replace_miss c s :
  startswith (c :: s) P = false ->
  replace_from P new 0 (c :: s) = c :: replace_from P new 0 s.
Proof. intros H. cbn [replace_from]. by rewrite H. Qed.

Lemma split_miss c s :
  startswith (c :: s) P = false ->
  split_from P 0 (c :: s) = push_char c (split_from P 0 s).
Proof. intros H. cbn [split_from]. by rewrite H. Qed.

(** The three situations of the scan. *)
Lemma scan_cases s :
  s = [] \/ (exists r, s = P ++ r) \/
  (exists c s', s = c :: s' /\ startswith (c :: s') P = false).
Proof.
  destruct s as [|c s']; [by left | right].
  destruct (startswith (c :: s') P) eqn:E.
  - left. by apply startswith_prefix in E.
  - right. by exists c, s'.
Qed.

Lemma length_hit r : (length r < length (P ++ r))%nat.
Proof. rewrite length_app. destruct P; [done | simpl; lia]. Qed.

Lemma not_occurs_nil : ~ occurs P [].
Proof.
  intros (u & v & H). symmetry in H.
  apply app_eq_nil in H as [_ H]. by apply app_eq_nil in H as [H _].
Qed.

(** Identity: a text without occurrence is copied as it is. *)
Lemma replace_free s : ~ occurs P s -> replace_from P new 0 s = s.
Proof.
  induction s as [|c s IH]; [done|]. intros H.
  rewrite replace_miss.
  - f_equal. apply IH. intros (u & v & ->). apply H. by exists (c :: u), v.
  - apply startswith_false. intros [k Hk]. apply H. by exists [], k.
Qed.

Lemma split_from_nonempty s : split_from P 0 s <> [].
Proof.
  destruct s as [|c s]; [done|]. cbn [split_from].
  destruct (startswith _ _); [done|]. by destruct (split_from P 0 s).
Qed.

Lemma str_join_push sep c l :
  l <> [] -> str_join sep (push_char c l) = c :: str_join sep l.
Proof. destruct l as [|x [|y l]]; done. Qed.

Lemma str_join_cons sep x l :
  l <> [] -> str_join sep (x :: l) = x ++ sep ++ str_join sep l.
Proof. destruct l; done. Qed.

(** The pieces, put back together with the pattern, are the text. *)
Lemma split_join s : str_join P (split_from P 0 s) = s.
Proof.
  induction s as [s IH] using str_length_ind.
  destruct (scan_cases s) as [-> | [[r ->] | (c & s' & -> & E)]].
  - done.
  - rewrite split_hit, str_join_cons by apply split_from_nonempty.
    rewrite IH by apply length_hit. done.
  - rewrite split_miss, str_join_push by (done || apply split_from_nonempty).
    rewrite IH by (simpl; lia). done.
Qed.

(** No piece contains the pattern. *)
Lemma split_free s : Forall (fun x => ~ occurs P x) (split_from P 0 s).
Proof.
  induction s as [s IH] using str_length_ind.
  destruct (scan_cases s) as [-> | [[r ->] | (c & s' & -> & E)]].
  - repeat constructor. apply not_occurs_nil.
  - rewrite split_hit. constructor; [apply not_occurs_nil|].
    apply IH, length_hit.
  - rewrite split_miss by done.
    assert (Hs : Forall (fun x => ~ occurs P x) (split_from P 0 s'))
      by (apply IH; simpl; lia).
    pose proof (split_join s') as Hj.
    destruct (split_from P 0 s') as [|x l] eqn:Ex;
      [by apply split_from_nonempty in Ex|].
    simpl. apply Forall_cons in Hs as [Hx Hl]. constructor; [|done].
    intros (u & v & Huv). destruct u as [|c' u]; simpl in Huv.
    + apply startswith_false in E. apply E.
      assert (Hp : x `prefix_of` s').
      { rewrite <- Hj. destruct l; [done|]. rewrite str_join_cons by done.
        by apply prefix_app_r. }
      destruct Hp as [k ->]. exists (v ++ k).
      change (c :: x ++ k) with ((c :: x) ++ k).
      rewrite Huv. by rewrite <- !app_assoc.
    + injection Huv as -> ->. apply Hx. by exists u, v.
Qed.

(** [s.replace(P, new)] is [new.join(s.split(P))]. *)
Lemma replace_join_split s :
  replace_from P new 0 s = str_join new (split_from P 0 s).
Proof.
  induction s as [s IH] using str_length_ind.
  destruct (scan_cases s) as [-> | [[r ->] | (c & s' & -> & E)]].
  - done.
  - rewrite replace_hit, split_hit, str_join_cons by apply split_from_nonempty.
    rewrite IH by apply length_hit. done.
  - rewrite replace_miss, split_miss, str_join_push
      by (done || apply split_from_nonempty).
    rewrite IH by (simpl; lia). done.
Qed.

(** Around an occurrence of an unbordered pattern the scan works on each
    side separately. *)
Lemma replace_insert (a b : str) :
  unbordered P ->
  replace_from P new 0 (a ++ P ++ b) =
  replace_from P new 0 a ++ new ++ replace_from P new 0 b.
Proof.
  intros HP. induction a as [a IH] using str_length_ind.
  destruct (scan_cases a) as [-> | [[r ->] | (c & a' & -> & E)]].
  - rewrite app_nil_l. by rewrite replace_hit.
  - rewrite <- app_assoc, !replace_hit, IH by apply length_hit.
    by rewrite <- app_assoc.
  - rewrite (replace_miss c a') by done.
    rewrite <- !app_comm_cons, replace_miss.
    + rewrite IH by (simpl; lia). done.
    + apply startswith_false. intros [k Hk].
      apply startswith_false in E. apply E.
      change (c :: a' ++ P ++ b) with ((c :: a') ++ P ++ b) in Hk.
      apply app_eq_inv in Hk as [(k' & Hk1 & Hk2) | (k' & Hk1 & Hk2)].
      * by exists k'.
      * apply app_eq_inv in Hk2 as [(k2 & Hk3 & Hk4) | (k2 & Hk3 & Hk4)].
        -- destruct (HP (c :: a') k' k2 Hk1 Hk3) as [-> | ?]; [|done].
           rewrite app_nil_r in Hk1. rewrite Hk1. done.
        -- rewrite Hk3 in Hk1. apply (f_equal length) in Hk1.
           rewrite !length_app in Hk1. simpl in Hk1. lia.
Qed.
End scan.

Lemma covered_spec p s j :
  covered p s j = true <->
  exists i, (i <= j < i + length p)%nat /\ p `prefix_of` drop i s.
Proof.
  unfold covered. rewrite existsb_exists. split.
  - intros (i & Hi & H). apply in_seq in Hi.
    apply andb_true_iff in H as [H1 H2].
    apply startswith_prefix in H1. apply Nat.ltb_lt in H2.
    exists i. split; [lia | done].
  - intros (i & Hi & H). exists i. split; [apply in_seq; lia|].
    apply andb_true_iff. split; [by apply startswith_prefix|].
    apply Nat.ltb_lt. lia.
Qed.

Lemma concat_imap_nil {A B} (f : nat -> A -> list B) (l : list A) :
  (forall j x, l !! j = Some x -> f j x = []) -> concat (imap f l) = [].
Proof.
  revert f. induction l as [|x l IH]; intros f H; [done|].
  simpl. rewrite (H 0%nat x) by done. simpl.
  apply IH. intros j y Hy. apply (H (S j)). done.
Qed.

Lemma unbordered_terminated (m : str) (t : codepoint) :
  t ∉ m -> unbordered (m ++ [t]).
Proof.
  intros Ht u v w Hu Hv.
  destruct v as [|x v' _] using rev_ind; [by left | right].
  rewrite app_assoc in Hu. apply app_inj_tail in Hu as [Hm <-].
  destruct w as [|y w' _] using rev_ind.
  - rewrite app_nil_r in Hv. apply app_inj_tail in Hv as [Hm' _].
    rewrite Hm' in Hm. apply (f_equal length) in Hm.
    rewrite length_app in Hm. destruct u; [done | simpl in Hm; lia].
  - rewrite app_assoc in Hv. apply app_inj_tail in Hv as [Hm' _].
    exfalso. apply Ht. rewrite Hm'.
    rewrite !elem_of_app, list_elem_of_singleton. auto.
Qed.

Section erase.
Variable P : str.
Hypothesis P_nonempty : P <> [].
Hypothesis P_unbordered : unbordered P.

Lemma covered_miss_0 c s :
  startswith (c :: s) P = false -> covered P (c :: s) 0 = false.
Proof.
  intros E. apply not_true_is_false. rewrite covered_spec.
  intros (i & Hi & H). assert (i = 0)%nat as -> by lia.
  apply startswith_false in E. by apply E.
Qed.

Lemma covered_miss_S c s j :
  startswith (c :: s) P = false ->
  covered P (c :: s) (S j) = covered P s j.
Proof.
  intros E. apply startswith_false in E.
  apply eq_iff_eq_true. rewrite !covered_spec. split.
  - intros ([|i] & Hi & H); [by destruct E|].
    exists i. split; [lia | done].
  - intros (i & Hi & H). exists (S i). split; [lia | done].
Qed.

Lemma covered_hit_inside r j :
  (j < length P)%nat -> covered P (P ++ r) j = true.
Proof.
  intros Hj. apply covered_spec. exists 0%nat. split; [lia|].
  by apply prefix_app_r.
Qed.

Lemma covered_hit_after r j :
  covered P (P ++ r) (length P + j) = covered P r j.
Proof.
  apply eq_iff_eq_true. rewrite !covered_spec. split.
  - intros (i & Hi & H).
    destruct (decide (length P <= i)%nat) as [Hle | Hlt].
    + exists (i - length P)%nat. split; [lia|].
      rewrite drop_app_ge in H by done. done.
    + exfalso. rewrite drop_app_le in H by lia.
      destruct H as [k Hk].
      assert (Hw : exists w, P = drop i P ++ w).
      { symmetry in Hk.
        apply app_eq_inv in Hk as [(k' & Hk1 & _) | (k' & Hk1 & _)].
        - by exists k'.
        - apply (f_equal length) in Hk1.
          rewrite length_app, length_drop in Hk1. lia. }
      destruct Hw as [w Hw].
      destruct (P_unbordered (take i P) (drop i P) w) as [H0 | H0];
        [by rewrite take_drop | done | |].
      * apply (f_equal length) in H0. rewrite length_drop in H0.
        simpl in H0. lia.
      * apply (f_equal length) in H0. rewrite length_take in H0.
        simpl in H0. lia.
  - intros (i & Hi & H). exists (length P + i)%nat. split; [lia|].
    rewrite drop_app_ge by lia.
    by replace (length P + i - length P)%nat with i by lia.
Qed.

Lemma erase_miss c s :
  startswith (c :: s) P = false ->
  erase_occurrences P (c :: s) = c :: erase_occurrences P s.
Proof.
  intros E. unfold erase_occurrences. cbn [imap concat].
  rewrite covered_miss_0 by done. cbn [app]. f_equal. f_equal.
  apply imap_ext. intros j x _. unfold compose.
  by rewrite covered_miss_S.
Qed.

Lemma erase_hit r :
  erase_occurrences P (P ++ r) = erase_occurrences P r.
Proof.
  unfold erase_occurrences. rewrite imap_app, concat_app.
  rewrite concat_imap_nil.
  - cbn [app]. f_equal. apply imap_ext. intros j x _.
    by rewrite covered_hit_after.
  - intros j x Hx. apply lookup_lt_Some in Hx.
    by rewrite covered_hit_inside.
Qed.

(** The scan of [replace] with an empty replacement removes exactly the
    characters that lie inside an occurrence. *)
Lemma replace_erases s :
  replace_from P [] 0 s = erase_occurrences P s.
Proof.
  induction s as [s IH] using str_length_ind.
  destruct (scan_cases P s) as [-> | [[r ->] | (c & s' & -> & E)]].
  - done.
  - rewrite replace_hit, erase_hit by done. cbn [app].
    apply IH. by apply length_hit.
  - rewrite replace_miss, erase_miss by done. f_equal.
    apply IH. simpl. lia.
Qed.
End erase.

(** ** Patterns that end with a terminator

    A pattern [m ++ [t]] in which [t] occurs only at the end, as the
    coverage message followed by its line terminator. *)
Section terminated.
Variables (m : str) (t : codepoint).
Hypothesis t_fresh : t ∉ m.

Lemma terminated_nonempty : m ++ [t] <> [].
Proof. clear. by destruct m. Qed.

Lemma occurs_intro (u v s : str) :
  s = (u ++ m) ++ t :: v -> occurs (m ++ [t]) s.
Proof. intros ->. exists u, v. by rewrite <- !app_assoc. Qed.

Lemma occurs_elim (s : str) :
  occurs (m ++ [t]) s -> exists u v, s = (u ++ m) ++ t :: v.
Proof. intros (u & v & ->). exists u, v. by rewrite <- !app_assoc. Qed.

Lemma t_not_in_middle (k1 k2 : str) : m <> k1 ++ t :: k2.
Proof.
  intros H. apply t_fresh. rewrite H.
  rewrite elem_of_app, elem_of_cons. auto.
Qed.

(** An occurrence cannot reach into a tail without terminator. *)
Lemma occurs_before_tail (a w : str) :
  t ∉ w -> occurs (m ++ [t]) (a ++ w) -> occurs (m ++ [t]) a.
Proof.
  intros Hw (u & v & H)%occurs_elim.
  apply app_eq_inv in H as [(k & Hk1 & Hk2) | (k & Hk1 & Hk2)].
  - destruct k as [|c k]; simpl in Hk2.
    + exfalso. apply Hw. rewrite <- Hk2. by left.
    + injection Hk2 as <- _. by apply (occurs_intro u k).
  - exfalso. apply Hw. rewrite Hk2.
    rewrite elem_of_app, elem_of_cons. auto.
Qed.

(** Gluing two texts without occurrence makes none when the first one
    ends a line. *)
Lemma free_app_line (x y : str) :
  ~ occurs (m ++ [t]) x -> ~ occurs (m ++ [t]) y ->
  (x = [] \/ exists x', x = x' ++ [t]) ->
  ~ occurs (m ++ [t]) (x ++ y).
Proof.
  intros Hx Hy [-> | [x' ->]]; [done|].
  intros (u & v & H)%occurs_elim.
  apply app_eq_inv in H as [(k & Hk1 & Hk2) | (k & Hk1 & Hk2)].
  - (* the terminator of the occurrence lies in [x] *)
    destruct k as [|c k]; simpl in Hk2.
    + rewrite app_nil_r in Hk1.
      assert (Hm : m = [] \/ exists m' c, m = m' ++ [c])
        by (clear; destruct m using rev_ind; eauto).
      destruct Hm as [Hm | (m' & c & Hm)].
      * apply Hy. apply (occurs_intro [] v). by rewrite <- Hk2, Hm.
      * rewrite Hm, app_assoc in Hk1. apply app_inj_tail in Hk1 as [_ Hc].
        apply t_fresh. rewrite Hm, <- Hc, elem_of_app, list_elem_of_singleton.
        auto.
    + injection Hk2 as <- _. apply Hx. by apply (occurs_intro u k).
  - (* the terminator of the occurrence lies in [y] *)
    apply app_eq_inv in Hk1 as [(k2 & Hk3 & Hk4) | (k2 & Hk3 & Hk4)].
    + apply Hy. apply (occurs_intro k2 v). rewrite Hk2, Hk4.
      by rewrite <- !app_assoc.
    + destruct k2 as [|c k2 _] using rev_ind.
      * apply Hy. apply (occurs_intro [] v).
        rewrite Hk2. rewrite app_nil_l in Hk4. by rewrite Hk4.
      * rewrite app_assoc in Hk3. apply app_inj_tail in Hk3 as [_ <-].
        rewrite <- app_assoc in Hk4. by apply t_not_in_middle in Hk4.
Qed.

Lemma join_aligned_inv (x y : str) (l : list str) :
  at_line_starts (m ++ [t]) t (str_join (m ++ [t]) (x :: y :: l)) ->
  (x = [] \/ exists x', x = x' ++ [t]) /\
  at_line_starts (m ++ [t]) t (str_join (m ++ [t]) (y :: l)).
Proof.
  rewrite (str_join_cons _ x (y :: l)) by done. intros H. split.
  - by apply (H x (str_join (m ++ [t]) (y :: l))).
  - intros u v Huv.
    destruct (H (x ++ (m ++ [t]) ++ u) v) as [H0 | [u' Hu']].
    + rewrite Huv. by rewrite <- !app_assoc.
    + apply app_eq_nil in H0 as [_ H0].
      apply app_eq_nil in H0 as [H0 _]. by apply terminated_nonempty in H0.
    + destruct u as [|c u _] using rev_ind; [by left | right].
      rewrite !app_assoc in Hu'. apply app_inj_tail in Hu' as [_ ->].
      by exists u.
Qed.

(** Without the occurrences, a text whose occurrences all start a line
    has none left. *)
Lemma join_free (segs : list str) :
  Forall (fun x => ~ occurs (m ++ [t]) x) segs ->
  at_line_starts (m ++ [t]) t (str_join (m ++ [t]) segs) ->
  ~ occurs (m ++ [t]) (str_join [] segs).
Proof.
  induction segs as [|x segs IH]; intros Hf Ha;
    [apply not_occurs_nil, terminated_nonempty|].
  destruct segs as [|y l].
  - by apply Forall_cons in Hf as [Hx _].
  - apply Forall_cons in Hf as [Hx Hf].
    apply join_aligned_inv in Ha as [Hx' Ha].
    rewrite (str_join_cons _ x (y :: l)) by done. rewrite app_nil_l.
    apply free_app_line; [done | by apply IH | done].
Qed.

Lemma replace_twice (s : str) :
  at_line_starts (m ++ [t]) t s ->
  replace_from (m ++ [t]) [] 0 (replace_from (m ++ [t]) [] 0 s) =
  replace_from (m ++ [t]) [] 0 s.
Proof.
  intros Ha. apply replace_free.
  rewrite replace_join_split by apply terminated_nonempty.
  apply join_free.
  - apply split_free, terminated_nonempty.
  - rewrite split_join by apply terminated_nonempty. done.
Qed.
End terminated.

(** ** [filter_coverage_message] *)

Lemma coverage_message_one_line : LF ∉ COVERAGE_MESSAGE.
Proof. apply (bool_decide_unpack _). by vm_compute. Qed.

Lemma coverage_line_nonempty : COVERAGE_MESSAGE ++ [LF] <> [].
Proof. apply terminated_nonempty. Qed.

Lemma coverage_line_unbordered : unbordered (COVERAGE_MESSAGE ++ [LF]).
Proof. apply unbordered_terminated, coverage_message_one_line. Qed.

Lemma filter_coverage_message_scan (output : str) :
  filter_coverage_message output =
  replace_from (COVERAGE_MESSAGE ++ [LF]) [] 0 output.
Proof. reflexivity. Qed.

Lemma not_occurs_by_search (p s : str) :
  str_contains s p = false -> ~ occurs p s.
Proof. intros E H. apply str_contains_occurs in H. congruence. Qed.

Lemma not_occurs_search (p s : str) :
  ~ occurs p s -> str_contains s p = false.
Proof.
  intros H. destruct (str_contains s p) eqn:E; [|done].
  by apply str_contains_occurs in E.
Qed.

Lemma occurs_line_message (s : str) :
  occurs (COVERAGE_MESSAGE ++ [LF]) s -> occurs COVERAGE_MESSAGE s.
Proof. intros (u & v & ->). exists u, ([LF] ++ v). by rewrite <- !app_assoc. Qed.

(** Around one occurrence the filter works on each side separately. *)
Lemma filter_coverage_message_insert (A B : str) :
  filter_coverage_message (A ++ COVERAGE_MESSAGE ++ [LF] ++ B) =
  filter_coverage_message A ++ filter_coverage_message B.
Proof.
  rewrite (filter_coverage_message_scan A), (filter_coverage_message_scan B),
    (filter_coverage_message_scan (A ++ _)).
  rewrite (app_assoc COVERAGE_MESSAGE).
  rewrite replace_insert;
    [done | apply coverage_line_nonempty | apply coverage_line_unbordered].
Qed.

Lemma marker_lines_aligned_from_spec (b : bool) (s : str) :
  marker_lines_aligned_from b s = true ->
  forall u v, s = u ++ (COVERAGE_MESSAGE ++ [LF]) ++ v ->
  (u = [] /\ b = true) \/ exists u', u = u' ++ [LF].
Proof.
  revert b. induction s as [|c s IH]; intros b Hb u v Huv.
  - symmetry in Huv. apply app_eq_nil in Huv as [_ Huv].
    apply app_eq_nil in Huv as [Huv _].
    by apply coverage_line_nonempty in Huv.
  - cbn [marker_lines_aligned_from] in Hb.
    apply andb_true_iff in Hb as [Hb1 Hb2].
    destruct u as [|c' u].
    + left. split; [done|]. rewrite app_nil_l in Huv.
      assert (E : startswith (c :: s) (COVERAGE_MESSAGE ++ [LF]) = true)
        by (rewrite Huv; apply startswith_app).
      rewrite E in Hb1. by destruct b.
    + right. rewrite <- app_comm_cons in Huv. injection Huv as <- Hs.
      destruct (IH _ Hb2 u v Hs) as [[-> Hc] | [u' ->]].
      * apply N.eqb_eq in Hc as ->. by exists [].
      * by exists (c :: u').
Qed.

Lemma marker_lines_aligned_spec (s : str) :
  marker_lines_aligned s = true ->
  at_line_starts (COVERAGE_MESSAGE ++ [LF]) LF s.
Proof.
  intros H u v Huv.
  destruct (marker_lines_aligned_from_spec true s H u v Huv) as [[-> _] | ?];
    auto.
Qed.

(** C1. For every input, [filter_coverage_message] returns the input
    without the characters of the occurrences of the coverage message
    followed by a line terminator, and with every other character kept in
    its place and order; an input with no such occurrence, in particular
    one that does not contain the coverage message at all, is returned
    unchanged. *)
Theorem filter_coverage_message_removes_marker_lines (output : str) :
  filter_coverage_message output =
    erase_occurrences (COVERAGE_MESSAGE ++ [LF]) output /\
  (~ occurs (COVERAGE_MESSAGE ++ [LF]) output ->
   filter_coverage_message output = output) /\
  (~ occurs COVERAGE_MESSAGE output ->
   filter_coverage_message output = output).
Proof.
  rewrite filter_coverage_message_scan. split; [|split].
  - apply replace_erases;
      [apply coverage_line_nonempty | apply coverage_line_unbordered].
  - apply replace_free.
  - intros H. apply replace_free. intros H'. by apply H, occurs_line_message.
Qed.

Lemma filter_coverage_message_removes_marker_lines_witness :
  ~ occurs COVERAGE_MESSAGE (lit "foo bar baz" ++ [LF]) /\
  filter_coverage_message (lit "foo bar baz" ++ [LF]) = lit "foo bar baz" ++ [LF].
Proof.
  assert (H : ~ occurs COVERAGE_MESSAGE (lit "foo bar baz" ++ [LF]))
    by (apply not_occurs_by_search; reflexivity).
  split; [exact H|].
  exact (proj2 (proj2 (filter_coverage_message_removes_marker_lines
                         (lit "foo bar baz" ++ [LF]))) H).
Defined.

(** The three runs at the end of [process_output.py]. *)
Example filter_coverage_message_run1 :
  filter_coverage_message (lit "foo bar baz" ++ [LF]) = lit "foo bar baz" ++ [LF].
Proof. reflexivity. Qed.

Example filter_coverage_message_run2 :
  filter_coverage_message
    (lit "foo" ++ [LF] ++ lit "bar" ++ [LF] ++ lit "baz" ++ [LF]) =
  lit "foo" ++ [LF] ++ lit "bar" ++ [LF] ++ lit "baz" ++ [LF].
Proof. reflexivity. Qed.

Example filter_coverage_message_run3 :
  filter_coverage_message
    (lit "foo" ++ [LF] ++ COVERAGE_MESSAGE ++ [LF] ++ lit "baz" ++ [LF]) =
  lit "foo" ++ [LF] ++ lit "baz" ++ [LF].
Proof. reflexivity. Qed.

Example erase_occurrences_run3 :
  erase_occurrences (COVERAGE_MESSAGE ++ [LF])
    (lit "foo" ++ [LF] ++ COVERAGE_MESSAGE ++ [LF] ++ lit "baz" ++ [LF]) =
  lit "foo" ++ [LF] ++ lit "baz" ++ [LF].
Proof. vm_compute. reflexivity. Qed.

(** C2, as stated, fails: removing an occurrence can bring the two halves
    of another one together, and a second pass removes that one. *)
Lemma filter_coverage_message_not_idempotent :
  filter_coverage_message
    (filter_coverage_message
       (lit "warning: GOCOV" ++ COVERAGE_MESSAGE ++ [LF]
        ++ lit "ERDIR not set, no coverage data emitted" ++ [LF])) <>
  filter_coverage_message
    (lit "warning: GOCOV" ++ COVERAGE_MESSAGE ++ [LF]
     ++ lit "ERDIR not set, no coverage data emitted" ++ [LF]).
Proof. vm_compute. discriminate. Qed.

Example marker_lines_aligned_split_marker :
  marker_lines_aligned
    (lit "warning: GOCOV" ++ COVERAGE_MESSAGE ++ [LF]
     ++ lit "ERDIR not set, no coverage data emitted" ++ [LF]) = false.
Proof. reflexivity. Qed.

(** C2, amended. On every input in which each occurrence of the coverage
    message followed by a line terminator starts a line (it is at the start
    of the text or right after a line terminator), filtering twice gives
    the same result as filtering once. *)
Theorem filter_coverage_message_idempotent_on_lines (output : str) :
  marker_lines_aligned output = true ->
  filter_coverage_message (filter_coverage_message output) =
  filter_coverage_message output.
Proof.
  intros H. rewrite (filter_coverage_message_scan output).
  rewrite filter_coverage_message_scan.
  apply replace_twice; [apply coverage_message_one_line|].
  by apply marker_lines_aligned_spec.
Qed.

Lemma filter_coverage_message_idempotent_on_lines_witness :
  marker_lines_aligned
    (lit "foo" ++ [LF] ++ COVERAGE_MESSAGE ++ [LF] ++ lit "baz" ++ [LF]) = true /\
  filter_coverage_message
    (filter_coverage_message
       (lit "foo" ++ [LF] ++ COVERAGE_MESSAGE ++ [LF] ++ lit "baz" ++ [LF])) =
  filter_coverage_message
    (lit "foo" ++ [LF] ++ COVERAGE_MESSAGE ++ [LF] ++ lit "baz" ++ [LF]).
Proof.
  split; [reflexivity|].
  apply filter_coverage_message_idempotent_on_lines. reflexivity.
Defined.

(** C3, as stated, fails when [A] or [B] contains the coverage message
    with its terminator: that occurrence is removed too. *)
Lemma filter_coverage_message_single_removal_fails :
  filter_coverage_message
    ([] ++ COVERAGE_MESSAGE ++ [LF] ++ (COVERAGE_MESSAGE ++ [LF])) <>
  [] ++ (COVERAGE_MESSAGE ++ [LF]).
Proof. vm_compute. discriminate. Qed.

(** C3, amended. For all strings [A] and [B] that contain no occurrence of
    the coverage message followed by a line terminator, filtering
    [A + MARKER + "\n" + B] yields exactly [A + B]. *)
Theorem filter_coverage_message_single_removal (A B : str) :
  ~ occurs (COVERAGE_MESSAGE ++ [LF]) A ->
  ~ occurs (COVERAGE_MESSAGE ++ [LF]) B ->
  filter_coverage_message (A ++ COVERAGE_MESSAGE ++ [LF] ++ B) = A ++ B.
Proof.
  intros HA HB. rewrite filter_coverage_message_insert.
  rewrite (filter_coverage_message_scan A), (filter_coverage_message_scan B).
  by rewrite !replace_free.
Qed.

Lemma filter_coverage_message_single_removal_witness :
  filter_coverage_message
    ((lit "foo" ++ [LF]) ++ COVERAGE_MESSAGE ++ [LF] ++ (lit "baz" ++ [LF])) =
  (lit "foo" ++ [LF]) ++ (lit "baz" ++ [LF]).
Proof.
  apply filter_coverage_message_single_removal;
    apply not_occurs_by_search; reflexivity.
Defined.

(** C9. A coverage message at the very end of the text, with no line
    terminator after it, is left in place: when the text before it has no
    occurrence of the message followed by a terminator, the whole string is
    returned unchanged. *)
Theorem filter_coverage_message_keeps_unterminated (a : str) :
  ~ occurs (COVERAGE_MESSAGE ++ [LF]) a ->
  filter_coverage_message (a ++ COVERAGE_MESSAGE) = a ++ COVERAGE_MESSAGE.
Proof.
  intros Ha. rewrite filter_coverage_message_scan. apply replace_free.
  intros H. apply Ha.
  by apply (occurs_before_tail COVERAGE_MESSAGE LF a COVERAGE_MESSAGE
              coverage_message_one_line).
Qed.

Lemma filter_coverage_message_keeps_unterminated_witness :
  filter_coverage_message ((lit "foo" ++ [LF]) ++ COVERAGE_MESSAGE) =
  (lit "foo" ++ [LF]) ++ COVERAGE_MESSAGE.
Proof.
  apply filter_coverage_message_keeps_unterminated.
  apply not_occurs_by_search. reflexivity.
Defined.

(** ** The line filter of [process_generated_output] *)

Lemma normalize_line_sequence_cons (line : str) (output : list str) :
  normalize_line_sequence (line :: output) =
  if decide (line = COVERAGE_MESSAGE)
  then normalize_line_sequence output
  else line :: normalize_line_sequence output.
Proof.
  unfold normalize_line_sequence. rewrite filter_cons.
  destruct (decide (line = COVERAGE_MESSAGE)) as [E | E];
    destruct (decide (line <> COVERAGE_MESSAGE)); done.
Qed.

Lemma normalize_line_sequence_greatest (kept output : list str) :
  kept `sublist_of` output -> COVERAGE_MESSAGE ∉ kept ->
  kept `sublist_of` normalize_line_sequence output.
Proof.
  induction 1 as [|x l1 l2 _ IH|x l1 l2 _ IH]; intros Hk.
  - constructor.
  - apply not_elem_of_cons in Hk as [Hx Hk].
    rewrite normalize_line_sequence_cons.
    destruct (decide (x = COVERAGE_MESSAGE)); [done|].
    apply sublist_skip. by apply IH.
  - rewrite normalize_line_sequence_cons.
    destruct (decide (x = COVERAGE_MESSAGE)); [by apply IH|].
    apply sublist_cons. by apply IH.
Qed.

(** C4. The line filter returns the lines of its input that differ from
    the coverage message, in their order: the result is a subsequence of
    the input, it contains no line equal to the coverage message, and every
    subsequence of the input without such a line is a subsequence of the
    result, so nothing else was removed.  The empty sequence is mapped to
    the empty sequence and ["a"; MARKER; "b"] to ["a"; "b"]. *)
Theorem normalize_line_sequence_removes_marker (output : list str) :
  (normalize_line_sequence output `sublist_of` output) /\
  (COVERAGE_MESSAGE ∉ normalize_line_sequence output) /\
  (forall kept : list str,
     kept `sublist_of` output -> COVERAGE_MESSAGE ∉ kept ->
     kept `sublist_of` normalize_line_sequence output) /\
  normalize_line_sequence [] = [] /\
  normalize_line_sequence [lit "a"; COVERAGE_MESSAGE; lit "b"] =
    [lit "a"; lit "b"].
Proof.
  split; [apply sublist_filter|].
  split; [unfold normalize_line_sequence; rewrite list_elem_of_filter; tauto|].
  split; [intros kept; apply normalize_line_sequence_greatest|].
  split; [reflexivity | by vm_compute].
Qed.

Lemma normalize_line_sequence_removes_marker_witness :
  [lit "a"; lit "b"] `sublist_of`
    normalize_line_sequence [lit "a"; COVERAGE_MESSAGE; lit "b"].
Proof.
  apply (proj1 (proj2 (proj2 (normalize_line_sequence_removes_marker
                                [lit "a"; COVERAGE_MESSAGE; lit "b"])))).
  - apply sublist_skip, sublist_cons, sublist_skip, sublist_nil.
  - apply (bool_decide_unpack _). by vm_compute.
Defined.

(** ** Decoding *)

Ltac euclid := zify; Z.to_euclidean_division_equations; lia.

Lemma in_range_spec (lo hi n : N) :
  in_range lo hi n = true <-> lo <= n /\ n <= hi.
Proof. unfold in_range. by rewrite andb_true_iff, !N.leb_le. Qed.

Lemma byte_of_to_N (b : Byte.byte) : byte_of (Byte.to_N b) = b.
Proof. unfold byte_of. by rewrite Byte.of_to_N. Qed.

Lemma encode_1 (n0 : N) :
  n0 < 128 -> utf8_encode_cp n0 = [byte_of n0] /\ scalar_value n0.
Proof.
  intros H. unfold utf8_encode_cp, scalar_value.
  destruct (N.ltb_spec n0 128); [split; [done | lia] | lia].
Qed.

Lemma encode_2 (n0 n1 : N) :
  194 <= n0 -> n0 < 224 -> is_cont n1 = true ->
  utf8_encode_cp ((n0 - 192) * 64 + (n1 - 128)) = [byte_of n0; byte_of n1] /\
  scalar_value ((n0 - 192) * 64 + (n1 - 128)).
Proof.
  intros H0 H0' H1%in_range_spec.
  set (c := (n0 - 192) * 64 + (n1 - 128)).
  assert (Hc : 128 <= c /\ c < 2048) by (subst c; lia).
  assert (Hd : 192 + c / 64 = n0 /\ 128 + c mod 64 = n1) by (subst c; euclid).
  unfold utf8_encode_cp, scalar_value.
  destruct (N.ltb_spec c 128); [lia|].
  destruct (N.ltb_spec c 2048); [|lia].
  destruct Hd as [-> ->]. split; [done | lia].
Qed.

Lemma encode_3 (n0 n1 n2 : N) :
  224 <= n0 -> n0 < 240 ->
  in_range (if n0 =? 224 then 160 else 128)
           (if n0 =? 237 then 159 else 191) n1 = true ->
  is_cont n2 = true ->
  utf8_encode_cp (((n0 - 224) * 64 + (n1 - 128)) * 64 + (n2 - 128)) =
    [byte_of n0; byte_of n1; byte_of n2] /\
  scalar_value (((n0 - 224) * 64 + (n1 - 128)) * 64 + (n2 - 128)).
Proof.
  intros H0 H0' H1%in_range_spec H2%in_range_spec.
  assert (H1' : 128 <= n1 /\ n1 <= 191 /\ (n0 = 224 -> 160 <= n1) /\
                (n0 = 237 -> n1 <= 159)).
  { destruct (N.eqb_spec n0 224), (N.eqb_spec n0 237); lia. }
  clear H1.
  set (c := ((n0 - 224) * 64 + (n1 - 128)) * 64 + (n2 - 128)).
  assert (Hc : 2048 <= c /\ c < 65536 /\ (c < 55296 \/ 57344 <= c))
    by (subst c; lia).
  assert (Hd : 224 + c / 4096 = n0 /\ 128 + (c / 64) mod 64 = n1 /\
               128 + c mod 64 = n2) by (subst c; euclid).
  unfold utf8_encode_cp, scalar_value.
  destruct (N.ltb_spec c 128); [lia|].
  destruct (N.ltb_spec c 2048); [lia|].
  destruct (N.ltb_spec c 65536); [|lia].
  destruct Hd as (-> & -> & ->). split; [done | lia].
Qed.

Lemma encode_4 (n0 n1 n2 n3 : N) :
  240 <= n0 -> n0 < 245 ->
  in_range (if n0 =? 240 then 144 else 128)
           (if n0 =? 244 then 143 else 191) n1 = true ->
  is_cont n2 = true -> is_cont n3 = true ->
  utf8_encode_cp
    ((((n0 - 240) * 64 + (n1 - 128)) * 64 + (n2 - 128)) * 64 + (n3 - 128)) =
    [byte_of n0; byte_of n1; byte_of n2; byte_of n3] /\
  scalar_value
    ((((n0 - 240) * 64 + (n1 - 128)) * 64 + (n2 - 128)) * 64 + (n3 - 128)).
Proof.
  intros H0 H0' H1%in_range_spec H2%in_range_spec H3%in_range_spec.
  assert (H1' : 128 <= n1 /\ n1 <= 191 /\ (n0 = 240 -> 144 <= n1) /\
                (n0 = 244 -> n1 <= 143)).
  { destruct (N.eqb_spec n0 240), (N.eqb_spec n0 244); lia. }
  clear H1.
  set (c := (((n0 - 240) * 64 + (n1 - 128)) * 64 + (n2 - 128)) * 64
            + (n3 - 128)).
  assert (Hc : 65536 <= c /\ c < 1114112) by (subst c; lia).
  assert (Hd : 240 + c / 262144 = n0 /\ 128 + (c / 4096) mod 64 = n1 /\
               128 + (c / 64) mod 64 = n2 /\ 128 + c mod 64 = n3)
    by (subst c; euclid).
  unfold utf8_encode_cp, scalar_value.
  destruct (N.ltb_spec c 128); [lia|].
  destruct (N.ltb_spec c 2048); [lia|].
  destruct (N.ltb_spec c 65536); [lia|].
  destruct Hd as (-> & -> & -> & ->). split; [done | lia].
Qed.

(** What [utf8_scan] accepts is the UTF-8 encoding of the text it returns,
    and that text is made of Unicode scalar values. *)
Lemma utf8_scan_sound (bs : bytes) (text : str) :
  utf8_scan bs = Some text ->
  utf8_encode text = bs /\ Forall scalar_value text.
Proof.
  revert text. induction bs as [bs IH] using length_ind. intros text H.
  destruct bs as [|b0 r0]; [by injection H as <-|].
  cbn [utf8_scan] in H. cbv zeta in H.
  destruct (N.ltb_spec (Byte.to_N b0) 128) as [L1 | L1].
  { apply fmap_Some in H as (rest & Hr & ->).
    apply IH in Hr as [He Hs]; [|simpl; lia].
    destruct (encode_1 _ L1) as [E S]. split; [|by constructor].
    cbn [utf8_encode flat_map]. rewrite E. fold (utf8_encode rest).
    by rewrite He, byte_of_to_N. }
  destruct (N.ltb_spec (Byte.to_N b0) 194) as [L2 | L2]; [done|].
  destruct (N.ltb_spec (Byte.to_N b0) 224) as [L3 | L3].
  { destruct r0 as [|b1 r1]; [done|].
    destruct (is_cont (Byte.to_N b1)) eqn:C1; [|done].
    apply fmap_Some in H as (rest & Hr & ->).
    apply IH in Hr as [He Hs]; [|simpl; lia].
    destruct (encode_2 _ _ L2 L3 C1) as [E S]. split; [|by constructor].
    cbn [utf8_encode flat_map]. rewrite E. fold (utf8_encode rest).
    by rewrite He, !byte_of_to_N. }
  destruct (N.ltb_spec (Byte.to_N b0) 240) as [L4 | L4].
  { destruct r0 as [|b1 [|b2 r2]]; [done | done |].
    match type of H with
    | (if ?c then _ else _) = _ => destruct c eqn:C; [|done]
    end.
    apply andb_true_iff in C as [C1 C2].
    apply fmap_Some in H as (rest & Hr & ->).
    apply IH in Hr as [He Hs]; [|simpl; lia].
    destruct (encode_3 _ _ _ L3 L4 C1 C2) as [E S]. split; [|by constructor].
    cbn [utf8_encode flat_map]. rewrite E. fold (utf8_encode rest).
    by rewrite He, !byte_of_to_N. }
  destruct (N.ltb_spec (Byte.to_N b0) 245) as [L5 | L5]; [|done].
  destruct r0 as [|b1 [|b2 [|b3 r3]]]; [done | done | done |].
  match type of H with
  | (if ?c then _ else _) = _ => destruct c eqn:C; [|done]
  end.
  apply andb_true_iff in C as [C C3]. apply andb_true_iff in C as [C1 C2].
  apply fmap_Some in H as (rest & Hr & ->).
  apply IH in Hr as [He Hs]; [|simpl; lia].
  destruct (encode_4 _ _ _ _ L4 L5 C1 C2 C3) as [E S]. split; [|by constructor].
  cbn [utf8_encode flat_map]. rewrite E. fold (utf8_encode rest).
  by rewrite He, !byte_of_to_N.
Qed.

Lemma to_N_byte_of (n : N) : n < 256 -> Byte.to_N (byte_of n) = n.
Proof.
  intros H. unfold byte_of. destruct (Byte.of_N n) as [b|] eqn:E.
  - by apply Byte.to_of_N.
  - apply Byte.of_N_None_iff in E. lia.
Qed.

Ltac split_tests :=
  repeat match goal with
    | |- context [N.eqb ?x ?y] => destruct (N.eqb_spec x y); try lia
    | |- context [N.ltb ?x ?y] => destruct (N.ltb_spec x y); try lia
    | |- context [N.leb ?x ?y] => destruct (N.leb_spec x y); try lia
    end.

(** The scan reads back the encoding of one scalar value. *)
Lemma utf8_scan_encode_cp (c : codepoint) (rest : bytes) :
  scalar_value c ->
  utf8_scan (utf8_encode_cp c ++ rest) = cons c <$> utf8_scan rest.
Proof.
  intros Hc. unfold scalar_value in Hc. unfold utf8_encode_cp.
  destruct (N.ltb_spec c 128) as [L1 | L1].
  { cbn [app utf8_scan]. cbv zeta. rewrite to_N_byte_of by lia.
    by destruct (N.ltb_spec c 128); [|lia]. }
  destruct (N.ltb_spec c 2048) as [L2 | L2].
  { assert (D : exists a b, c = a * 64 + b /\ b < 64 /\
                            c / 64 = a /\ c mod 64 = b).
    { exists (c / 64), (c mod 64). euclid. }
    destruct D as (a & b & Ec & Hb & -> & ->).
    cbn [app utf8_scan]. cbv zeta. rewrite !to_N_byte_of by lia.
    unfold is_cont, in_range. split_tests. cbn [andb].
    f_equal. f_equal. lia. }
  destruct (N.ltb_spec c 65536) as [L3 | L3].
  { assert (D : exists a b d, c = (a * 64 + b) * 64 + d /\ b < 64 /\ d < 64 /\
                              c / 4096 = a /\ (c / 64) mod 64 = b /\
                              c mod 64 = d).
    { exists (c / 4096), ((c / 64) mod 64), (c mod 64). euclid. }
    destruct D as (a & b & d & Ec & Hb & Hd & -> & -> & ->).
    cbn [app utf8_scan]. cbv zeta. rewrite !to_N_byte_of by lia.
    unfold is_cont, in_range. split_tests; cbn [andb]; f_equal; f_equal; lia. }
  assert (D : exists a b d e, c = ((a * 64 + b) * 64 + d) * 64 + e /\
                              b < 64 /\ d < 64 /\ e < 64 /\
                              c / 262144 = a /\ (c / 4096) mod 64 = b /\
                              (c / 64) mod 64 = d /\ c mod 64 = e).
  { exists (c / 262144), ((c / 4096) mod 64), ((c / 64) mod 64), (c mod 64).
    euclid. }
  destruct D as (a & b & d & e & Ec & Hb & Hd & He & -> & -> & -> & ->).
  cbn [app utf8_scan]. cbv zeta. rewrite !to_N_byte_of by lia.
  unfold is_cont, in_range. split_tests; cbn [andb]; f_equal; f_equal; lia.
Qed.

(** Every text of scalar values is read back from its encoding. *)
Lemma utf8_scan_complete (text : str) :
  Forall scalar_value text -> utf8_scan (utf8_encode text) = Some text.
Proof.
  induction 1 as [|c text Hc _ IH]; [done|].
  cbn [utf8_encode flat_map]. fold (utf8_encode text).
  by rewrite utf8_scan_encode_cp, IH.
Qed.

Lemma utf8_decode_encode (text : str) :
  Forall scalar_value text -> utf8_decode (utf8_encode text) = Ok text.
Proof. intros H. unfold utf8_decode. by rewrite utf8_scan_complete. Qed.

Lemma utf8_decode_Ok (b : bytes) (text : str) :
  utf8_decode b = Ok text -> utf8_encode text = b /\ Forall scalar_value text.
Proof.
  unfold utf8_decode. destruct (utf8_scan b) as [t|] eqn:E; [|done].
  intros [= <-]. by apply utf8_scan_sound.
Qed.

Lemma utf8_decode_Raise (b : bytes) (e : exn) :
  utf8_decode b = Raise e ->
  e = UnicodeDecodeError /\
  ~ exists text, Forall scalar_value text /\ utf8_encode text = b.
Proof.
  unfold utf8_decode. destruct (utf8_scan b) as [t|] eqn:E; [done|].
  intros [= <-]. split; [done|]. intros (text & Hs & <-).
  by rewrite utf8_scan_complete in E.
Qed.

(** ** Splitting on one character *)

Lemma occurs_singleton (c : codepoint) (s : str) : occurs [c] s <-> c ∈ s.
Proof.
  split.
  - intros (u & v & ->). rewrite !elem_of_app, list_elem_of_singleton. auto.
  - intros (u & v & ->)%list_elem_of_split. by exists u, v.
Qed.

Lemma split_char_free (sep : codepoint) (x : str) :
  sep ∉ x -> split_from [sep] 0 x = [x].
Proof.
  induction x as [|c x IH]; [done|]. intros [Hc Hx]%not_elem_of_cons.
  cbn [split_from startswith]. destruct (N.eqb_spec sep c); [done|].
  cbn [andb]. by rewrite IH.
Qed.

Lemma split_char_app (sep : codepoint) (x rest : str) :
  sep ∉ x ->
  split_from [sep] 0 (x ++ sep :: rest) = x :: split_from [sep] 0 rest.
Proof.
  induction x as [|c x IH].
  - intros _. cbn [app split_from startswith]. by rewrite N.eqb_refl.
  - intros [Hc Hx]%not_elem_of_cons. rewrite <- app_comm_cons.
    cbn [split_from startswith]. destruct (N.eqb_spec sep c); [done|].
    cbn [andb]. by rewrite IH.
Qed.

(** The pieces are determined by the text: splitting what was joined gives
    the pieces back. *)
Lemma split_char_join (sep : codepoint) (pieces : list str) :
  pieces <> [] -> Forall (fun x => sep ∉ x) pieces ->
  split_from [sep] 0 (str_join [sep] pieces) = pieces.
Proof.
  induction pieces as [|x pieces IH]; [done|]. intros _ Hf.
  apply Forall_cons in Hf as [Hx Hf]. destruct pieces as [|y l].
  - by apply split_char_free.
  - rewrite (str_join_cons _ x (y :: l)) by done. cbn [app].
    rewrite split_char_app by done. by rewrite IH.
Qed.

Lemma split_char_spec (sep : codepoint) (s : str) :
  str_join [sep] (split_from [sep] 0 s) = s /\
  Forall (fun x => sep ∉ x) (split_from [sep] 0 s).
Proof.
  split; [by apply split_join|].
  eapply Forall_impl; [by apply (split_free [sep])|].
  intros x Hx Hin. by apply Hx, occurs_singleton.
Qed.

(** ** Processing the output of a finished process *)

Lemma process_ccx_notification_service_output_steps
    (context : gmap string attr) (out : popen) (stdout : bytes)
    (return_codes : list Z) :
  communicate out = (Some stdout, None) ->
  process_ccx_notification_service_output context (Some out) return_codes =
  match utf8_decode stdout with
  | Raise e => Raise e
  | Ok text =>
      if (returncode out =? 0)%Z || bool_decide (returncode out ∈ return_codes)
      then Ok (<["returncode" := AInt (returncode out)]>
               (<["stderr" := ANone]>
                (<["stdout" := ABytes stdout]>
                 (<["output" := ALines (split_from [LF] 0 text)]> context))))
      else Raise (AssertionError
                    (lit "Return code is " ++ str_of_Z (returncode out)
                     ++ lit ". Check the logs:" ++ [LF] ++ lit "vvvvv" ++ [LF]
                     ++ text ++ [LF] ++ lit "^^^^^" ++ [LF]))
  end.
Proof.
  intros Hc. unfold process_ccx_notification_service_output. rewrite Hc.
  cbn [bool_decide assert bind attr_of_stream].
  rewrite bool_decide_eq_true_2 by done. cbn [bind assert].
  destruct (utf8_decode stdout) as [text | e];
    destruct ((returncode out =? 0)%Z || _); done.
Qed.

Lemma process_generated_output_steps
    (context : gmap string attr) (out : popen) (stdout : bytes)
    (return_code : option Z) :
  communicate out = (Some stdout, None) ->
  process_generated_output context (Some out) return_code =
  if truthy return_code &&
     negb ((returncode out =? 0)%Z || eq_code (returncode out) return_code)
  then Raise (AssertionError
                (lit "Return code is " ++ str_of_Z (returncode out)))
  else
    match utf8_decode stdout with
    | Raise e => Raise e
    | Ok text =>
        Ok (<["return_code" := AInt (returncode out)]>
            (<["stderr" := ANone]>
             (<["stdout" := ABytes stdout]>
              (<["output" :=
                   ALines (normalize_line_sequence (split_from [LF] 0 text))]>
                 context))))
    end.
Proof.
  intros Hc. unfold process_generated_output. rewrite Hc.
  rewrite bool_decide_eq_true_2 by done. cbn [bind assert attr_of_stream].
  destruct (truthy return_code);
    [destruct ((returncode out =? 0)%Z || _)|];
    cbn [andb negb bind assert]; by destruct (utf8_decode stdout).
Qed.

(** C8. The captured bytes are decoded as UTF-8 and the text is split
    into lines on the line terminator before anything is done with lines.
    For a process that closed its streams properly and whose exit code is
    accepted: when the payload is the UTF-8 encoding of a text, both
    operations store as [output] the lines of that text (the pieces that,
    joined with the terminator, give the text back, none containing a
    terminator), [process_generated_output] after dropping the lines equal
    to the coverage message; a payload that is not UTF-8 makes both raise
    the decoding error. *)
Theorem captured_bytes_are_decoded_then_split
    (context : gmap string attr) (out : popen) (stdout : bytes)
    (return_codes : list Z) (return_code : option Z) :
  communicate out = (Some stdout, None) ->
  returncode out = 0%Z \/ returncode out ∈ return_codes ->
  truthy return_code = false \/ returncode out = 0%Z \/
    return_code = Some (returncode out) ->
  (exists (text : str) (lines : list str),
      Forall scalar_value text /\ utf8_encode text = stdout /\
      str_join [LF] lines = text /\ Forall (fun l => LF ∉ l) lines /\
      process_ccx_notification_service_output context (Some out) return_codes =
        Ok (<["returncode" := AInt (returncode out)]>
            (<["stderr" := ANone]>
             (<["stdout" := ABytes stdout]>
              (<["output" := ALines lines]> context)))) /\
      process_generated_output context (Some out) return_code =
        Ok (<["return_code" := AInt (returncode out)]>
            (<["stderr" := ANone]>
             (<["stdout" := ABytes stdout]>
              (<["output" := ALines (normalize_line_sequence lines)]>
                 context)))))
  \/
  ((~ exists text : str, Forall scalar_value text /\ utf8_encode text = stdout) /\
   process_ccx_notification_service_output context (Some out) return_codes =
     Raise UnicodeDecodeError /\
   process_generated_output context (Some out) return_code =
     Raise UnicodeDecodeError).
Proof.
  intros Hc H1 H2.
  rewrite (process_ccx_notification_service_output_steps _ _ _ _ Hc).
  rewrite (process_generated_output_steps _ _ _ _ Hc).
  assert (E1 : (returncode out =? 0)%Z
               || bool_decide (returncode out ∈ return_codes) = true).
  { destruct H1 as [-> | H1]; [done|].
    rewrite (bool_decide_eq_true_2 _ H1). apply orb_true_r. }
  assert (E2 : truthy return_code &&
               negb ((returncode out =? 0)%Z
                     || eq_code (returncode out) return_code) = false).
  { destruct H2 as [-> | [-> | ->]]; [done | apply andb_false_r |].
    cbn [eq_code]. rewrite Z.eqb_refl, orb_true_r. apply andb_false_r. }
  rewrite E1, E2.
  destruct (utf8_decode stdout) as [text | e] eqn:D.
  - left. apply utf8_decode_Ok in D as [He Hs].
    destruct (split_char_spec LF text) as [Hj Hf].
    by exists text, (split_from [LF] 0 text).
  - right. by apply utf8_decode_Raise in D as [-> D].
Qed.

Lemma captured_bytes_are_decoded_then_split_witness :
  let stdout := [x68; xc3; xa9; x0a; x6f; x6b] in
  let out := {| communicate := (Some stdout, None); returncode := 0 |} in
  (exists (text : str) (lines : list str),
      Forall scalar_value text /\ utf8_encode text = stdout /\
      str_join [LF] lines = text /\ Forall (fun l => LF ∉ l) lines /\
      process_ccx_notification_service_output ∅ (Some out) [4; 5; 9]%Z =
        Ok (<["returncode" := AInt (returncode out)]>
            (<["stderr" := ANone]>
             (<["stdout" := ABytes stdout]>
              (<["output" := ALines lines]> ∅)))) /\
      process_generated_output ∅ (Some out) None =
        Ok (<["return_code" := AInt (returncode out)]>
            (<["stderr" := ANone]>
             (<["stdout" := ABytes stdout]>
              (<["output" := ALines (normalize_line_sequence lines)]> ∅)))))
  \/
  ((~ exists text : str, Forall scalar_value text /\ utf8_encode text = stdout) /\
   process_ccx_notification_service_output ∅ (Some out) [4; 5; 9]%Z =
     Raise UnicodeDecodeError /\
   process_generated_output ∅ (Some out) None = Raise UnicodeDecodeError).
Proof.
  intros stdout out.
  apply (captured_bytes_are_decoded_then_split ∅ out stdout [4; 5; 9]%Z None);
    [reflexivity | by left | by left].
Defined.

(** A run on the bytes of a two-line output that holds the coverage
    message. *)
Example process_generated_output_run :
  match
    process_generated_output ∅
      (Some {| communicate :=
                 (Some ([x6f; x6b; x0a] ++ utf8_encode COVERAGE_MESSAGE
                        ++ [x0a; x68; xc3; xa9]), None);
               returncode := 0 |}) None
  with
  | Ok context => context !! "output"
  | Raise _ => None
  end = Some (ALines [lit "ok"; [104; 233]]).
Proof. vm_compute. reflexivity. Qed.

(** C6, as stated, fails in two places.  [process_generated_output] called
    without an expected return code makes no check: exit code 7, which is
    neither 0 nor in any supplied set, is accepted.  And when the captured
    output is not valid UTF-8, [process_ccx_notification_service_output]
    fails on a refused exit code with the decoding error raised while the
    message is built, which does not carry the code. *)
Lemma exit_code_check_fails :
  (exists context,
     process_generated_output ∅
       (Some {| communicate := (Some [x6f; x6b], None); returncode := 7 |})
       None = Ok context) /\
  process_ccx_notification_service_output ∅
    (Some {| communicate := (Some [xff], None); returncode := 1 |})
    [4; 5; 9]%Z = Raise UnicodeDecodeError.
Proof.
  split; [|reflexivity].
  rewrite (process_generated_output_steps _ _ [x6f; x6b]) by reflexivity.
  cbn. eauto.
Qed.

(** C6, amended.  For a process that closed its streams properly:
    [process_ccx_notification_service_output] raises no assertion when the
    exit code is 0 or belongs to the supplied codes; on any other exit code
    it fails, with an assertion whose message carries the observed code and
    the decoded output, or with the decoding error when the output is not
    valid UTF-8.  [process_generated_output] given an expected return code
    other than 0 raises no assertion when the exit code is 0 or the expected
    one, and on any other exit code fails with the assertion
    "Return code is <code>"; given no expected return code ([None] or 0) it
    raises no assertion whatever the exit code. *)
Theorem exit_code_check
    (context : gmap string attr) (out : popen) (stdout : bytes)
    (return_codes : list Z) (return_code : option Z) :
  communicate out = (Some stdout, None) ->
  (returncode out = 0%Z \/ returncode out ∈ return_codes ->
   forall msg,
     process_ccx_notification_service_output context (Some out) return_codes
     <> Raise (AssertionError msg)) /\
  (~ (returncode out = 0%Z \/ returncode out ∈ return_codes) ->
   process_ccx_notification_service_output context (Some out) return_codes =
   match utf8_decode stdout with
   | Ok logs =>
       Raise (AssertionError
                (lit "Return code is " ++ str_of_Z (returncode out)
                 ++ lit ". Check the logs:" ++ [LF] ++ lit "vvvvv" ++ [LF]
                 ++ logs ++ [LF] ++ lit "^^^^^" ++ [LF]))
   | Raise e => Raise e
   end) /\
  (truthy return_code = true ->
   (returncode out = 0%Z \/ return_code = Some (returncode out) ->
    forall msg,
      process_generated_output context (Some out) return_code
      <> Raise (AssertionError msg)) /\
   (~ (returncode out = 0%Z \/ return_code = Some (returncode out)) ->
    process_generated_output context (Some out) return_code =
    Raise (AssertionError
             (lit "Return code is " ++ str_of_Z (returncode out))))) /\
  (truthy return_code = false ->
   forall msg,
     process_generated_output context (Some out) return_code
     <> Raise (AssertionError msg)).
Proof.
  intros Hc.
  rewrite (process_ccx_notification_service_output_steps _ _ _ _ Hc).
  rewrite (process_generated_output_steps _ _ _ _ Hc).
  assert (D : forall e, utf8_decode stdout = Raise e -> e = UnicodeDecodeError).
  { intros e H. by apply utf8_decode_Raise in H as [H _]. }
  split; [|split; [|split]].
  - intros H msg.
    replace ((returncode out =? 0)%Z
             || bool_decide (returncode out ∈ return_codes)) with true.
    + destruct (utf8_decode stdout) as [text|e];
        [discriminate | rewrite (D e eq_refl); discriminate].
    + symmetry. destruct H as [-> | H]; [done|].
      rewrite (bool_decide_eq_true_2 _ H). apply orb_true_r.
  - intros H.
    replace ((returncode out =? 0)%Z
             || bool_decide (returncode out ∈ return_codes)) with false; [done|].
    symmetry. apply orb_false_iff. split.
    + apply Z.eqb_neq. tauto.
    + apply bool_decide_eq_false_2. tauto.
  - intros Ht. rewrite Ht. cbn [andb]. split.
    + intros H msg.
      replace ((returncode out =? 0)%Z
               || eq_code (returncode out) return_code) with true.
      * cbn [negb]. destruct (utf8_decode stdout) as [text|e];
        [discriminate | rewrite (D e eq_refl); discriminate].
      * symmetry. destruct H as [-> | ->]; [done|].
        cbn [eq_code]. rewrite Z.eqb_refl. apply orb_true_r.
    + intros H.
      replace ((returncode out =? 0)%Z
               || eq_code (returncode out) return_code) with false; [done|].
      symmetry. apply orb_false_iff. split.
      * apply Z.eqb_neq. tauto.
      * destruct return_code as [z|]; [|done]. cbn [eq_code].
        apply Z.eqb_neq. intros E. apply H. right. by rewrite E.
  - intros Ht msg. rewrite Ht. cbn [andb].
    destruct (utf8_decode stdout) as [text|e];
        [discriminate | rewrite (D e eq_refl); discriminate].
Qed.

Lemma exit_code_check_witness :
  let out := {| communicate := (Some [x6f; x6b], None); returncode := 3 |} in
  (returncode out = 0%Z \/ returncode out ∈ [4; 5; 9]%Z ->
   forall msg,
     process_ccx_notification_service_output ∅ (Some out) [4; 5; 9]%Z
     <> Raise (AssertionError msg)) /\
  (~ (returncode out = 0%Z \/ returncode out ∈ [4; 5; 9]%Z) ->
   process_ccx_notification_service_output ∅ (Some out) [4; 5; 9]%Z =
   match utf8_decode [x6f; x6b] with
   | Ok logs =>
       Raise (AssertionError
                (lit "Return code is " ++ str_of_Z (returncode out)
                 ++ lit ". Check the logs:" ++ [LF] ++ lit "vvvvv" ++ [LF]
                 ++ logs ++ [LF] ++ lit "^^^^^" ++ [LF]))
   | Raise e => Raise e
   end) /\
  (truthy (Some 4%Z) = true ->
   (returncode out = 0%Z \/ Some 4%Z = Some (returncode out) ->
    forall msg,
      process_generated_output ∅ (Some out) (Some 4%Z)
      <> Raise (AssertionError msg)) /\
   (~ (returncode out = 0%Z \/ Some 4%Z = Some (returncode out)) ->
    process_generated_output ∅ (Some out) (Some 4%Z) =
    Raise (AssertionError
             (lit "Return code is " ++ str_of_Z (returncode out))))) /\
  (truthy (Some 4%Z) = false ->
   forall msg,
     process_generated_output ∅ (Some out) (Some 4%Z)
     <> Raise (AssertionError msg)).
Proof.
  intros out.
  apply (exit_code_check ∅ out [x6f; x6b] [4; 5; 9]%Z (Some 4%Z)).
  reflexivity.
Defined.

(** A refused exit code, in both operations: the message carries it. *)
Example exit_code_refused :
  process_ccx_notification_service_output ∅
    (Some {| communicate := (Some [x6f; x6b], None); returncode := 3 |})
    [4; 5; 9]%Z =
  Raise (AssertionError
           (lit "Return code is 3. Check the logs:" ++ [LF] ++ lit "vvvvv"
            ++ [LF] ++ lit "ok" ++ [LF] ++ lit "^^^^^" ++ [LF])) /\
  process_generated_output ∅
    (Some {| communicate := (Some [x6f; x6b], None); returncode := 3 |})
    (Some 4%Z) =
  Raise (AssertionError (lit "Return code is 3")).
Proof. split; reflexivity. Qed.

(** C10.  When the expected return code given to
    [process_generated_output] is [None] or 0, the exit code is not
    checked: the assertion on the return code is never raised, and two
    finished processes with the same streams are treated alike whatever
    their exit codes, which only show in the stored [return_code]. *)
Theorem process_generated_output_unchecked
    (context : gmap string attr) (out out' : popen) (return_code : option Z) :
  truthy return_code = false ->
  communicate out = communicate out' ->
  (forall code,
     process_generated_output context (Some out) return_code <>
     Raise (AssertionError (lit "Return code is " ++ code))) /\
  (forall e,
     process_generated_output context (Some out) return_code = Raise e <->
     process_generated_output context (Some out') return_code = Raise e) /\
  (forall saved,
     process_generated_output context (Some out') return_code = Ok saved ->
     process_generated_output context (Some out) return_code =
     Ok (<["return_code" := AInt (returncode out)]> saved)).
Proof.
  intros Ht Hc. unfold process_generated_output. rewrite Ht, <- Hc.
  destruct (communicate out) as [stdout stderr].
  destruct stderr as [err|].
  { rewrite bool_decide_eq_false_2 by done. cbn [bind assert].
    split; [|done]. intros code H. vm_compute in H. discriminate. }
  rewrite bool_decide_eq_true_2 by done. cbn [bind assert].
  destruct stdout as [stdout|].
  2: { split; [|done]. intros code H. vm_compute in H. discriminate. }
  cbn [bind].
  destruct (utf8_decode stdout) as [text|e0] eqn:D; cbn [bind str_split].
  - split; [done|]. split; [done|]. intros saved [= <-].
    by rewrite insert_insert_eq.
  - apply utf8_decode_Raise in D as [-> _]. by repeat split.
Qed.

Lemma process_generated_output_unchecked_witness :
  let out := {| communicate := (Some [x6f; x6b], None); returncode := 3 |} in
  let out' := {| communicate := (Some [x6f; x6b], None); returncode := 0 |} in
  (forall code,
     process_generated_output ∅ (Some out) None <>
     Raise (AssertionError (lit "Return code is " ++ code))) /\
  (forall e,
     process_generated_output ∅ (Some out) None = Raise e <->
     process_generated_output ∅ (Some out') None = Raise e) /\
  (forall saved,
     process_generated_output ∅ (Some out') None = Ok saved ->
     process_generated_output ∅ (Some out) None =
     Ok (<["return_code" := AInt (returncode out)]> saved)).
Proof.
  intros out out'.
  apply (process_generated_output_unchecked ∅ out out' None); reflexivity.
Defined.

(** ** The step "the logs should match" *)

Lemma check_row_holds (output : str) (r : row) :
  row_holds output r -> check_row output r = Ok tt.
Proof.
  unfold check_row. intros [[Hy Ho] | [Hn Ho]].
  - rewrite bool_decide_eq_true_2 by done.
    apply str_contains_occurs in Ho. by rewrite Ho.
  - rewrite bool_decide_eq_false_2 by (rewrite Hn; by vm_compute).
    rewrite bool_decide_eq_true_2 by done.
    by rewrite (not_occurs_search _ _ Ho).
Qed.

Lemma check_rows_hold (output : str) (rows : list row) :
  Forall (row_holds output) rows -> check_rows output rows = Ok tt.
Proof.
  induction 1 as [|r rows Hr _ IH]; [done|].
  cbn [check_rows]. by rewrite check_row_holds.
Qed.

Lemma check_rows_app (output : str) (before after : list row) :
  Forall (row_holds output) before ->
  check_rows output (before ++ after) = check_rows output after.
Proof.
  induction 1 as [|r rows Hr _ IH]; [done|].
  cbn [app check_rows]. by rewrite check_row_holds.
Qed.

(** C7.  The step reads the rows in order.  At a row whose "contains" value
    is neither "yes" nor "no", reached after rows that all hold, it raises
    [ValueError] with a message that names the value, not an assertion.  At
    a "yes" row it goes on when the log text is in the output and raises an
    assertion when it is not; at a "no" row it goes on when the log text is
    absent and raises an assertion when it is present. *)
Theorem check_logs_rows
    (context : gmap string attr) (stdout : bytes) (output : str)
    (before : list row) (r : row) (after : list row) :
  context !! "stdout" = Some (ABytes stdout) ->
  utf8_decode stdout = Ok output ->
  Forall (row_holds output) before ->
  (contains r <> lit "yes" -> contains r <> lit "no" ->
   check_logs context (Some (before ++ r :: after)) =
   Raise (ValueError
            (lit "option " ++ [DQUOTE] ++ contains r ++ [DQUOTE]
             ++ lit " is other than " ++ [DQUOTE] ++ lit "yes" ++ [DQUOTE]
             ++ lit " or " ++ [DQUOTE] ++ lit "no" ++ [DQUOTE]))) /\
  (contains r = lit "yes" ->
   (occurs (log r) output ->
    check_logs context (Some (before ++ r :: after)) =
    check_logs context (Some after)) /\
   (~ occurs (log r) output ->
    check_logs context (Some (before ++ r :: after)) =
    Raise (AssertionError
             (lit "log " ++ [DQUOTE] ++ log r ++ [DQUOTE]
              ++ lit " not found in output:" ++ [LF] ++ output)))) /\
  (contains r = lit "no" ->
   (~ occurs (log r) output ->
    check_logs context (Some (before ++ r :: after)) =
    check_logs context (Some after)) /\
   (occurs (log r) output ->
    check_logs context (Some (before ++ r :: after)) =
    Raise (AssertionError
             (lit "log " ++ [DQUOTE] ++ log r ++ [DQUOTE]
              ++ lit " found in output:" ++ [LF] ++ output)))).
Proof.
  intros Hs Hd Hb. unfold check_logs. rewrite Hs, Hd. cbn [bind].
  rewrite check_rows_app by done. cbn [check_rows]. unfold check_row.
  split; [|split].
  - intros Hy Hn. by rewrite !bool_decide_eq_false_2 by done.
  - intros Hy. rewrite bool_decide_eq_true_2 by done. split; intros Ho.
    + apply str_contains_occurs in Ho. by rewrite Ho.
    + by rewrite (not_occurs_search _ _ Ho).
  - intros Hn.
    rewrite bool_decide_eq_false_2 by (rewrite Hn; by vm_compute).
    rewrite bool_decide_eq_true_2 by done. split; intros Ho.
    + by rewrite (not_occurs_search _ _ Ho).
    + apply str_contains_occurs in Ho. by rewrite Ho.
Qed.

Lemma check_logs_rows_witness :
  check_logs (<["stdout" := ABytes [x68; x69]]> ∅)
    (Some ([ {| log := lit "h"; contains := lit "yes" |} ]
           ++ {| log := lit "i"; contains := lit "maybe" |} :: [])) =
  Raise (ValueError
           (lit "option " ++ [DQUOTE] ++ lit "maybe" ++ [DQUOTE]
            ++ lit " is other than " ++ [DQUOTE] ++ lit "yes" ++ [DQUOTE]
            ++ lit " or " ++ [DQUOTE] ++ lit "no" ++ [DQUOTE])).
Proof.
  refine (proj1 (check_logs_rows (<["stdout" := ABytes [x68; x69]]> ∅)
                   [x68; x69] (lit "hi")
                   [ {| log := lit "h"; contains := lit "yes" |} ]
                   {| log := lit "i"; contains := lit "maybe" |} []
                   _ _ _) _ _).
  - apply lookup_insert_eq.
  - reflexivity.
  - apply Forall_cons_2; [|apply Forall_nil_2].
    left. split; [reflexivity|]. apply str_contains_occurs. reflexivity.
  - intros H. vm_compute in H. discriminate.
  - intros H. vm_compute in H. discriminate.
Defined.

(** ** The "Age" parameter *)

Lemma replace_char_filter (c : codepoint) (s : str) :
  str_replace s [c] [] = filter (fun x => x <> c) s.
Proof.
  unfold str_replace. induction s as [|x s IH]; [done|].
  cbn [replace_from startswith length].
  rewrite (filter_cons (fun x0 => x0 <> c)).
  destruct (N.eqb_spec c x) as [<- | Hx]; cbn [andb app Nat.sub].
  - rewrite IH. by destruct (decide (c <> c)).
  - rewrite IH. destruct (decide (x <> c)) as [|E]; [done|].
    destruct E. congruence.
Qed.

Section age.
Variables isdigit_cp isalpha_cp : codepoint -> bool.

Lemma str_isdigit_spec (s : str) :
  str_isdigit isdigit_cp s = true <->
  s <> [] /\ Forall (fun c => isdigit_cp c = true) s.
Proof.
  unfold str_isdigit.
  rewrite andb_true_iff, negb_true_iff, bool_decide_eq_false.
  by rewrite forallb_forall, Forall_forall; setoid_rewrite list_elem_of_In.
Qed.

Lemma str_isalpha_spec (s : str) :
  str_isalpha isalpha_cp s = true <->
  s <> [] /\ Forall (fun c => isalpha_cp c = true) s.
Proof.
  unfold str_isalpha.
  rewrite andb_true_iff, negb_true_iff, bool_decide_eq_false.
  by rewrite forallb_forall, Forall_forall; setoid_rewrite list_elem_of_In.
Qed.

Lemma two_tokens_split (s : str) :
  two_tokens isdigit_cp isalpha_cp s <->
  exists t1 t2, split_from [SPACE] 0 s = [t1; t2] /\
                str_isdigit isdigit_cp t1 = true /\
                str_isalpha isalpha_cp t2 = true.
Proof.
  split.
  - intros (t1 & t2 & -> & H1 & H2 & Hd).
    exists t1, t2. rewrite split_char_app, split_char_free by done.
    rewrite str_isdigit_spec, str_isalpha_spec. tauto.
  - intros (t1 & t2 & Hs & Hd & Ha).
    destruct (split_char_spec SPACE s) as [Hj Hf]. rewrite Hs in Hj, Hf.
    apply Forall_cons in Hf as [H1 Hf]. apply Forall_cons in Hf as [H2 _].
    apply str_isdigit_spec in Hd. apply str_isalpha_spec in Ha.
    exists t1, t2. rewrite <- Hj. cbn [str_join app]. tauto.
Qed.

(** The outcome of [parse_max_age] on a string, by the pieces of the
    string without its double quotes. *)
Lemma parse_max_age_str (s : str) :
  (exists t1 t2,
      split_from [SPACE] 0 (filter (fun c => c <> DQUOTE) s) = [t1; t2] /\
      str_isdigit isdigit_cp t1 = true /\ str_isalpha isalpha_cp t2 = true /\
      parse_max_age isdigit_cp isalpha_cp (VStr s) = Ok (VStr s)) \/
  ((~ exists t1 t2,
        split_from [SPACE] 0 (filter (fun c => c <> DQUOTE) s) = [t1; t2] /\
        str_isdigit isdigit_cp t1 = true /\
        str_isalpha isalpha_cp t2 = true) /\
   exists msg,
     parse_max_age isdigit_cp isalpha_cp (VStr s) =
     Raise (AssertionError msg)).
Proof.
  unfold parse_max_age. rewrite replace_char_filter. cbn [str_split bind].
  set (items := split_from [SPACE] 0 (filter (fun c => c <> DQUOTE) s)).
  destruct items as [|t1 [|t2 [|t3 l]]] eqn:E;
    try (right; split; [by intros (? & ? & ? & _) | cbn; eauto]).
  cbn [length Nat.eqb assert bind].
  change ([t1; t2] !!! 0%nat) with t1. change ([t1; t2] !!! 1%nat) with t2.
  destruct (str_isdigit isdigit_cp t1) eqn:Hd; cbn [assert bind].
  - destruct (str_isalpha isalpha_cp t2) eqn:Ha; cbn [assert bind].
    + left. by exists t1, t2.
    + right. split; [|eauto]. intros (? & ? & [= <- <-] & _ & ?). congruence.
  - right. split; [|eauto]. intros (? & ? & [= <- <-] & ? & _). congruence.
Qed.

(** C5, amended.  [parse_max_age] accepts its input, and returns it as it
    was given, exactly when the input is a string that, once its double
    quote characters are removed, is made of two tokens separated by one
    space, the first not empty and entirely digits, the second not empty
    and entirely alphabetic; on every other input it raises an
    assertion. *)
Theorem parse_max_age_accepts (max_age : value) :
  (parse_max_age isdigit_cp isalpha_cp max_age = Ok max_age <->
   exists s, max_age = VStr s /\
             two_tokens isdigit_cp isalpha_cp
               (filter (fun c => c <> DQUOTE) s)) /\
  (parse_max_age isdigit_cp isalpha_cp max_age = Ok max_age \/
   exists msg,
     parse_max_age isdigit_cp isalpha_cp max_age =
     Raise (AssertionError msg)).
Proof.
  destruct max_age as [|z|s].
  - split; [|right; cbn; eauto]. split; [done | by intros (? & ? & _)].
  - split; [|right; cbn; eauto]. split; [done | by intros (? & ? & _)].
  - destruct (parse_max_age_str s) as
      [(t1 & t2 & Hs & Hd & Ha & ->) | [Hn [msg ->]]].
    + split; [|by left]. split; [|done]. intros _. exists s. split; [done|].
      apply two_tokens_split. by exists t1, t2.
    + split; [|right; eauto]. split; [done|].
      intros (s' & [= <-] & H%two_tokens_split). by destruct Hn.
Qed.
End age.

(** C5, as stated, fails: a quoted value is accepted although its first
    token starts with a double quote, which is not a digit. *)
Lemma parse_max_age_accepts_quoted :
  parse_max_age ascii_isdigit ascii_isalpha
    (VStr ([DQUOTE] ++ lit "1 day" ++ [DQUOTE])) =
  Ok (VStr ([DQUOTE] ++ lit "1 day" ++ [DQUOTE])) /\
  ~ two_tokens ascii_isdigit ascii_isalpha ([DQUOTE] ++ lit "1 day" ++ [DQUOTE]).
Proof.
  split; [reflexivity|].
  intros (t1 & t2 & Hs & _ & _ & Hne & Hd & _).
  destruct t1 as [|c t1]; [done|].
  injection Hs as <- _. apply Forall_cons in Hd as [Hd _].
  vm_compute in Hd. discriminate.
Qed.

(** Runs of [parse_max_age] on ASCII values. *)
Example parse_max_age_run1 :
  parse_max_age ascii_isdigit ascii_isalpha (VStr (lit "3 days")) =
  Ok (VStr (lit "3 days")).
Proof. reflexivity. Qed.

Example parse_max_age_run2 :
  parse_max_age ascii_isdigit ascii_isalpha (VStr (lit "3days")) =
  Raise (AssertionError
           (lit "expected max_age to have 2 parts: the value and the unit. Got 3days")).
Proof. reflexivity. Qed.

Example parse_max_age_run3 :
  parse_max_age ascii_isdigit ascii_isalpha (VStr (lit "x days")) =
  Raise (AssertionError (lit "expected max_age to start with an integer, got x")).
Proof. reflexivity. Qed.

Example parse_max_age_run4 :
  parse_max_age ascii_isdigit ascii_isalpha (VInt 3) =
  Raise (AssertionError
           (lit "expected max_age to be a string with 2 parts: the value and the unit. Got <class 'int'> - 3")).
Proof. reflexivity. Qed.

(** * Further properties *)

(** ** The filter and the lines of a text *)

Section lines.
Variables (m : str) (t : codepoint).
Hypothesis t_fresh : t ∉ m.

(** After a whole number of lines the scan is at a line start again: the
    two parts of the text are scanned separately. *)
Lemma replace_app_line (new a b : str) :
  a = [] \/ (exists a', a = a' ++ [t]) ->
  replace_from (m ++ [t]) new 0 (a ++ b) =
  replace_from (m ++ [t]) new 0 a ++ replace_from (m ++ [t]) new 0 b.
Proof.
  pose proof (terminated_nonempty m t) as Hne.
  induction a as [a IH] using str_length_ind. intros Ha.
  destruct (scan_cases (m ++ [t]) a) as [-> | [[r ->] | (c & a' & -> & E)]].
  - done.
  - rewrite <- (app_assoc (m ++ [t])), !replace_hit by done.
    rewrite IH; [by rewrite <- app_assoc | by apply length_hit |].
    destruct r as [|z r _] using rev_ind; [by left | right].
    destruct Ha as [Ha | [a' Ha]].
    + by apply app_eq_nil in Ha as [Ha _].
    + rewrite app_assoc in Ha. apply app_inj_tail in Ha as [_ ->]. by exists r.
  - destruct Ha as [Ha | [a0 Ha]]; [done|].
    rewrite (replace_miss _ _ c a') by done.
    rewrite <- app_comm_cons, replace_miss.
    + rewrite IH; [done | simpl; lia |].
      destruct a' as [|z a' _] using rev_ind; [by left | right].
      rewrite app_comm_cons in Ha. apply app_inj_tail in Ha as [_ ->].
      by exists a'.
    + apply startswith_false. intros [k Hk].
      apply startswith_false in E. apply E.
      rewrite app_comm_cons in Hk.
      apply app_eq_inv in Hk as [(k' & Hk1 & Hk2) | (k' & Hk1 & Hk2)].
      * by exists k'.
      * rewrite Ha in Hk1.
        destruct k' as [|z k' _] using rev_ind.
        -- exists []. rewrite Ha, Hk1. by rewrite !app_nil_r.
        -- rewrite !app_assoc in Hk1. apply app_inj_tail in Hk1 as [Hm _].
           rewrite <- app_assoc in Hm. by apply t_not_in_middle in Hm.
Qed.

(** A line that does not end with [m] goes through the scan untouched. *)
Lemma replace_line_kept (x rest : str) :
  t ∉ x -> ~ m `suffix_of` x ->
  replace_from (m ++ [t]) [] 0 (x ++ t :: rest) =
  x ++ t :: replace_from (m ++ [t]) [] 0 rest.
Proof.
  induction x as [|c x IH]; intros Hx Hs.
  - rewrite app_nil_l, replace_miss; [done|].
    apply startswith_false. intros [k Hk].
    destruct m as [|c m']; [by destruct Hs; exists []|].
    injection Hk as <- _. apply t_fresh. by left.
  - apply not_elem_of_cons in Hx as [Hc Hx].
    rewrite <- app_comm_cons, replace_miss.
    + rewrite IH; [done | done |].
      intros [k ->]. apply Hs. by exists (c :: k).
    + apply startswith_false. intros [k Hk].
      rewrite <- (app_assoc m) in Hk. cbn [app] in Hk.
      change (c :: x ++ t :: rest) with ((c :: x) ++ t :: rest) in Hk.
      apply not_elem_of_app_cons_inv_l in Hk as [Hk _];
        [| done | by apply not_elem_of_cons].
      apply Hs. rewrite Hk. by exists [].
Qed.
End lines.

(** X1.  Filtering a text that ends a line, followed by more text, filters
    the two parts separately: no occurrence of the coverage message with its
    terminator can lie across a line boundary. *)
Theorem filter_coverage_message_app_lines (a b : str) :
  filter_coverage_message ((a ++ [LF]) ++ b) =
  filter_coverage_message (a ++ [LF]) ++ filter_coverage_message b.
Proof.
  rewrite (filter_coverage_message_scan ((a ++ [LF]) ++ b)),
    (filter_coverage_message_scan (a ++ [LF])), (filter_coverage_message_scan b).
  apply replace_app_line; [apply coverage_message_one_line|].
  right. by exists a.
Qed.

Lemma normalize_line_sequence_last (lines : list str) :
  lines <> [] -> last lines <> Some COVERAGE_MESSAGE ->
  normalize_line_sequence lines <> [].
Proof.
  destruct lines as [|z lines _] using rev_ind; [done|]. intros _ Hl.
  rewrite last_snoc in Hl. unfold normalize_line_sequence.
  rewrite filter_app, filter_cons_True by congruence.
  by destruct (filter _ lines).
Qed.

Lemma filter_coverage_message_join (lines : list str) :
  Forall (fun l => LF ∉ l) lines ->
  last lines <> Some COVERAGE_MESSAGE ->
  Forall (fun l => COVERAGE_MESSAGE `suffix_of` l -> l = COVERAGE_MESSAGE)
    lines ->
  filter_coverage_message (str_join [LF] lines) =
  str_join [LF] (normalize_line_sequence lines).
Proof.
  induction lines as [|x lines IH]; [done|]. intros Hf Hl Hs.
  apply Forall_cons in Hf as [Hx Hf]. apply Forall_cons in Hs as [Hxs Hs].
  rewrite normalize_line_sequence_cons. destruct lines as [|y l].
  - cbn [last] in Hl. destruct (decide (x = COVERAGE_MESSAGE)); [congruence|].
    change (normalize_line_sequence []) with (@nil str). cbn [str_join].
    rewrite filter_coverage_message_scan. apply replace_free.
    intros (u & v & ->). apply Hx.
    rewrite !elem_of_app, list_elem_of_singleton. auto.
  - rewrite (str_join_cons _ x (y :: l)) by done.
    assert (Hl' : last (y :: l) <> Some COVERAGE_MESSAGE) by done.
    specialize (IH Hf Hl' Hs).
    rewrite filter_coverage_message_scan in *.
    destruct (decide (x = COVERAGE_MESSAGE)) as [-> | Hne].
    + rewrite app_assoc, replace_hit by apply coverage_line_nonempty.
      by rewrite app_nil_l.
    + cbn [app]. rewrite replace_line_kept;
        [| apply coverage_message_one_line | done | tauto].
      rewrite IH, str_join_cons; [done|].
      by apply normalize_line_sequence_last.
Qed.

(** X2.  The two filters of [process_output.py] agree on a text in which
    the coverage message only stands as a whole line and is not the last,
    unterminated line: filtering the text gives the lines that the line
    filter keeps, joined again. *)
Theorem filter_coverage_message_by_lines (text : str) :
  last (split_from [LF] 0 text) <> Some COVERAGE_MESSAGE ->
  Forall (fun l => COVERAGE_MESSAGE `suffix_of` l -> l = COVERAGE_MESSAGE)
    (split_from [LF] 0 text) ->
  filter_coverage_message text =
  str_join [LF] (normalize_line_sequence (split_from [LF] 0 text)).
Proof.
  intros Hl Hs. destruct (split_char_spec LF text) as [Hj Hf].
  rewrite <- Hj at 1. by apply filter_coverage_message_join.
Qed.

Lemma filter_coverage_message_by_lines_witness :
  filter_coverage_message
    (lit "foo" ++ [LF] ++ COVERAGE_MESSAGE ++ [LF] ++ lit "baz" ++ [LF]) =
  str_join [LF]
    (normalize_line_sequence
       (split_from [LF] 0
          (lit "foo" ++ [LF] ++ COVERAGE_MESSAGE ++ [LF] ++ lit "baz" ++ [LF]))).
Proof.
  apply filter_coverage_message_by_lines.
  - vm_compute. discriminate.
  - apply (bool_decide_unpack _). by vm_compute.
Defined.

(** Where they differ: a last line without terminator, and a line that
    only ends with the coverage message. *)
Example filters_differ_on_last_line :
  filter_coverage_message (lit "a" ++ [LF] ++ COVERAGE_MESSAGE) =
    lit "a" ++ [LF] ++ COVERAGE_MESSAGE /\
  str_join [LF]
    (normalize_line_sequence
       (split_from [LF] 0 (lit "a" ++ [LF] ++ COVERAGE_MESSAGE))) = lit "a".
Proof. split; by vm_compute. Qed.

Example filters_differ_on_line_end :
  filter_coverage_message
    (lit "x" ++ COVERAGE_MESSAGE ++ [LF] ++ lit "b") = lit "xb" /\
  str_join [LF]
    (normalize_line_sequence
       (split_from [LF] 0 (lit "x" ++ COVERAGE_MESSAGE ++ [LF] ++ lit "b"))) =
    lit "x" ++ COVERAGE_MESSAGE ++ [LF] ++ lit "b".
Proof. split; by vm_compute. Qed.

(** ** Outcomes of sequenced steps *)

Lemma bind_Ok {A B} (r : result A) (k : A -> result B) (b : B) :
  bind r k = Ok b <-> exists a, r = Ok a /\ k a = Ok b.
Proof.
  destruct r as [a|e]; cbn [bind].
  - split; [by exists a | by intros (a' & [= <-] & H)].
  - split; [done | by intros (a' & H & _)].
Qed.

Lemma assert_Ok (cond : bool) (msg : result str) (u : unit) :
  assert cond msg = Ok u <-> cond = true.
Proof.
  destruct cond; cbn [assert]; [by destruct u|].
  by destruct msg.
Qed.

Lemma assert_in_Ok (needle stdout : str) (u : unit) :
  assert_in needle stdout = Ok u <-> occurs needle stdout.
Proof. unfold assert_in. by rewrite assert_Ok, str_contains_occurs. Qed.

Lemma assert_in_Raise (needle stdout : str) :
  ~ occurs needle stdout ->
  assert_in needle stdout =
  Raise (AssertionError (lit "Caught output: " ++ stdout)).
Proof.
  intros H. unfold assert_in. by rewrite (not_occurs_search _ _ H).
Qed.

(** ** Lines of a text *)

Lemma push_char_app (c : codepoint) (l1 l2 : list str) :
  l1 <> [] -> push_char c (l1 ++ l2) = push_char c l1 ++ l2.
Proof. by destruct l1. Qed.

Lemma split_char_cat (sep : codepoint) (a b : str) :
  split_from [sep] 0 (a ++ sep :: b) =
  split_from [sep] 0 a ++ split_from [sep] 0 b.
Proof.
  induction a as [|c a IH].
  - cbn [app split_from startswith]. by rewrite N.eqb_refl.
  - rewrite <- app_comm_cons. cbn [split_from startswith length].
    destruct (N.eqb_spec sep c); cbn [andb Nat.sub]; rewrite IH; [done|].
    apply push_char_app, split_from_nonempty.
Qed.

Lemma str_join_app_cons (sep : str) (l1 : list str) (x : str) (l2 : list str) :
  exists u v,
    str_join sep (l1 ++ x :: l2) = u ++ x ++ v /\
    (u = [] \/ exists u', u = u' ++ sep) /\
    (v = [] \/ exists v', v = sep ++ v').
Proof.
  induction l1 as [|y l1 IH].
  - exists []. destruct l2 as [|z l2].
    + exists []. rewrite app_nil_r. auto.
    + exists (sep ++ str_join sep (z :: l2)). split; [done|]. eauto.
  - destruct IH as (u & v & Hj & Hu & Hv).
    exists (y ++ sep ++ u), v. rewrite <- app_comm_cons.
    rewrite str_join_cons by (by destruct l1). rewrite Hj.
    split; [by rewrite <- !app_assoc|]. split; [|done]. right.
    destruct Hu as [-> | [u' ->]].
    + exists y. by rewrite app_nil_r.
    + exists (y ++ sep ++ u'). by rewrite <- !app_assoc.
Qed.

(** The elements of [text.split("\n")] are the lines of [text]. *)
Lemma elem_of_split_lines (x text : str) :
  x ∈ split_from [LF] 0 text <-> is_line x text.
Proof.
  split.
  - intros Hx. destruct (split_char_spec LF text) as [Hj Hf].
    split; [by apply (proj1 (Forall_forall _ _) Hf)|].
    apply list_elem_of_split in Hx as (l1 & l2 & Hl).
    destruct (str_join_app_cons [LF] l1 x l2) as (u & v & Hj' & Hu & Hv).
    exists u, v. rewrite <- Hj, Hl. split; [done|]. split; [done|].
    destruct Hv as [-> | [v' ->]]; eauto.
  - intros (Hx & u & v & -> & Hu & Hv).
    assert (H : x ∈ split_from [LF] 0 (x ++ v)).
    { destruct Hv as [-> | [v' ->]].
      - rewrite app_nil_r, split_char_free by done. by left.
      - rewrite split_char_app by done. by left. }
    destruct Hu as [-> | [u' ->]]; [done|].
    rewrite <- app_assoc. cbn [app]. rewrite split_char_cat.
    apply elem_of_app. by right.
Qed.

(** ** What the processing of an output stores *)

Lemma process_ccx_notification_service_output_Ok
    (context : gmap string attr) (out : popen) (return_codes : list Z)
    (saved : gmap string attr) :
  process_ccx_notification_service_output context (Some out) return_codes =
    Ok saved ->
  exists stdout text,
    communicate out = (Some stdout, None) /\
    utf8_decode stdout = Ok text /\
    saved = <["returncode" := AInt (returncode out)]>
              (<["stderr" := ANone]>
               (<["stdout" := ABytes stdout]>
                (<["output" := ALines (split_from [LF] 0 text)]> context))).
Proof.
  destruct (communicate out) as [[stdout|] [stderr|]] eqn:Hc;
    try (unfold process_ccx_notification_service_output; rewrite Hc; done).
  rewrite (process_ccx_notification_service_output_steps _ _ _ _ Hc).
  destruct (utf8_decode stdout) as [text|] eqn:Hd; [|done].
  destruct (_ || _); [|done]. intros [= <-]. by exists stdout, text.
Qed.

Lemma process_generated_output_Ok
    (context : gmap string attr) (out : popen) (return_code : option Z)
    (saved : gmap string attr) :
  process_generated_output context (Some out) return_code = Ok saved ->
  exists stdout text,
    communicate out = (Some stdout, None) /\
    utf8_decode stdout = Ok text /\
    saved = <["return_code" := AInt (returncode out)]>
              (<["stderr" := ANone]>
               (<["stdout" := ABytes stdout]>
                (<["output" :=
                     ALines (normalize_line_sequence (split_from [LF] 0 text))]>
                   context))).
Proof.
  destruct (communicate out) as [[stdout|] [stderr|]] eqn:Hc;
    try (unfold process_generated_output; rewrite Hc; done).
  rewrite (process_generated_output_steps _ _ _ _ Hc).
  destruct (_ && _); [done|].
  destruct (utf8_decode stdout) as [text|] eqn:Hd; [|done].
  intros [= <-]. by exists stdout, text.
Qed.

Lemma check_row_Ok (output : str) (r : row) (u : unit) :
  check_row output r = Ok u <-> row_holds output r.
Proof.
  split; [|destruct u; apply check_row_holds].
  unfold check_row, row_holds.
  destruct (bool_decide (contains r = lit "yes")) eqn:Ey.
  - apply bool_decide_eq_true in Ey. rewrite assert_Ok, str_contains_occurs.
    auto.
  - destruct (bool_decide (contains r = lit "no")) eqn:En; [|done].
    apply bool_decide_eq_true in En.
    rewrite assert_Ok, negb_true_iff. intros H. right. split; [done|].
    by apply not_occurs_by_search.
Qed.

(** X3.  The step "the logs should match" passes exactly when every row of
    its table holds of the decoded output: a "yes" row whose text is in the
    output, a "no" row whose text is not.  In particular a table with a
    malformed row never passes. *)
Theorem check_logs_passes_iff
    (context : gmap string attr) (stdout : bytes) (output : str)
    (rows : list row) :
  context !! "stdout" = Some (ABytes stdout) ->
  utf8_decode stdout = Ok output ->
  check_logs context (Some rows) = Ok tt <-> Forall (row_holds output) rows.
Proof.
  intros Hs Hd. unfold check_logs. rewrite Hs, Hd. cbn [bind].
  split; [|apply check_rows_hold].
  induction rows as [|r rows IH]; [done|]. cbn [check_rows].
  intros (u & Hr & H)%bind_Ok. constructor; [|by apply IH].
  by apply check_row_Ok in Hr.
Qed.

Lemma check_logs_passes_iff_witness :
  check_logs (<["stdout" := ABytes [x68; x69]]> ∅)
    (Some [ {| log := lit "h"; contains := lit "yes" |};
            {| log := lit "x"; contains := lit "no" |} ]) = Ok tt <->
  Forall (row_holds (lit "hi"))
    [ {| log := lit "h"; contains := lit "yes" |};
      {| log := lit "x"; contains := lit "no" |} ].
Proof.
  apply (check_logs_passes_iff _ [x68; x69]);
    [apply lookup_insert_eq | reflexivity].
Defined.

(** ** Checks on the stored lines *)

Section format_checks.
Variable format_bytes : bytes -> str.
Variable format_lines : list str -> str.

Lemma assert_items_in_Ok (output items : list str) :
  assert_items_in format_bytes format_lines (ALines output) items = Ok tt <->
  Forall (fun item => item ∈ output) items.
Proof.
  induction items as [|item items IH]; cbn [assert_items_in].
  - split; [constructor | done].
  - rewrite bind_Ok, Forall_cons. split.
    + intros (u & Ha & H). apply assert_Ok, bool_decide_eq_true in Ha.
      split; [done | by apply IH].
    + intros [Hi H]. exists tt. split; [|by apply IH].
      by apply assert_Ok, bool_decide_eq_true.
Qed.

Lemma assert_items_in_first_missing (output before : list str) (item : str)
    (after : list str) :
  Forall (fun i => i ∈ output) before -> item ∉ output ->
  assert_items_in format_bytes format_lines (ALines output)
    (before ++ item :: after) =
  Raise (AssertionError (item ++ lit " not in " ++ format_lines output)).
Proof.
  intros Hb Hi. induction Hb as [|i before Hin _ IH]; cbn [app assert_items_in].
  - cbn [lines_of]. by rewrite bool_decide_eq_false_2.
  - cbn [lines_of]. by rewrite bool_decide_eq_true_2.
Qed.

(** X4.  The help check passes exactly when every expected flag is one of
    the stored lines of output; otherwise it raises an assertion that names
    the first expected flag that is missing. *)
Theorem check_help_passes_iff
    (context : gmap string attr) (output : list str) :
  context !! "output" = Some (ALines output) ->
  (check_help_from_ccx_notification_service format_bytes format_lines context
     = Ok tt <->
   Forall (fun item => item ∈ output) expected_output) /\
  (forall before item after,
     expected_output = before ++ item :: after ->
     Forall (fun i => i ∈ output) before -> item ∉ output ->
     check_help_from_ccx_notification_service format_bytes format_lines context
     = Raise (AssertionError (item ++ lit " not in " ++ format_lines output))).
Proof.
  intros Ho. unfold check_help_from_ccx_notification_service, get_attr.
  rewrite Ho. cbn [bind is_None is_list negb assert]. split.
  - apply assert_items_in_Ok.
  - intros before item after ->. apply assert_items_in_first_missing.
Qed.

(** X5.  After [process_ccx_notification_service_output] has stored the
    output of a process, the version check passes exactly when the text the
    process printed has a line that is the version banner, the whole line
    and nothing else, and the authors check likewise for the line of the
    authors. *)
Theorem check_version_after_run
    (context : gmap string attr) (out : popen) (return_codes : list Z)
    (saved : gmap string attr) :
  process_ccx_notification_service_output context (Some out) return_codes =
    Ok saved ->
  exists stdout text,
    communicate out = (Some stdout, None) /\
    utf8_encode text = stdout /\
    (check_version_from_ccx_notification_service format_bytes format_lines
       saved = Ok tt <->
     is_line (lit "Notification service version 1.0") text) /\
    (check_authors_info_from_ccx_notification_service format_bytes format_lines
       saved = Ok tt <->
     is_line (lit "Pavel Tisnovsky, Papa Bakary Camara, Red Hat Inc.") text).
Proof.
  intros (stdout & text & Hc & Hd & ->)%process_ccx_notification_service_output_Ok.
  exists stdout, text. split; [done|].
  split; [by apply utf8_decode_Ok in Hd as [? _]|].
  unfold check_version_from_ccx_notification_service,
    check_authors_info_from_ccx_notification_service, get_attr.
  rewrite !lookup_insert_ne, lookup_insert_eq by done.
  cbn [bind is_None is_list negb assert lines_of].
  by rewrite !assert_Ok, !bool_decide_eq_true, !elem_of_split_lines.
Qed.

(** X6.  After [process_ccx_notification_service_output] has stored the
    result of a process, the status check passes exactly for the exit code
    of that process; for any other expected code it raises an assertion
    whose message gives both codes and the decoded output. *)
Theorem check_status_code_after_run
    (context : gmap string attr) (out : popen) (return_codes : list Z)
    (saved : gmap string attr) (expected_code : Z) :
  process_ccx_notification_service_output context (Some out) return_codes =
    Ok saved ->
  (check_status_code format_bytes format_lines saved expected_code = Ok tt <->
   expected_code = returncode out) /\
  (expected_code <> returncode out ->
   exists stdout text,
     communicate out = (Some stdout, None) /\ utf8_encode text = stdout /\
     check_status_code format_bytes format_lines saved expected_code =
     Raise (AssertionError
              (lit "Return code is " ++ str_of_Z (returncode out)
               ++ lit ", but " ++ str_of_Z expected_code
               ++ lit " is expected. Check the logs:" ++ [LF] ++ text))).
Proof.
  intros (stdout & text & Hc & Hd & ->)%process_ccx_notification_service_output_Ok.
  unfold check_status_code, get_attr.
  rewrite lookup_insert_eq, !lookup_insert_ne, lookup_insert_eq by done.
  cbn [bind decode_attr format_attr]. rewrite Hd. cbn [bind]. split.
  - rewrite assert_Ok, Z.eqb_eq. split; congruence.
  - intros Hne. exists stdout, text. split; [done|].
    split; [by apply utf8_decode_Ok in Hd as [? _]|].
    apply not_eq_sym, Z.eqb_neq in Hne. by rewrite Hne.
Qed.

(** X7.  [process_generated_output] stores the exit code under the name
    [return_code], while the status check reads [returncode]: on a context
    that has no [returncode] yet, the status check after
    [process_generated_output] raises [AttributeError] whatever code is
    expected. *)
Theorem check_status_code_after_generated_output
    (context : gmap string attr) (out : popen) (return_code : option Z)
    (saved : gmap string attr) (expected_code : Z) :
  context !! "returncode" = None ->
  process_generated_output context (Some out) return_code = Ok saved ->
  check_status_code format_bytes format_lines saved expected_code =
  Raise AttributeError.
Proof.
  intros Hn (stdout & text & Hc & Hd & ->)%process_generated_output_Ok.
  unfold check_status_code, get_attr.
  by rewrite !lookup_insert_ne, Hn by done.
Qed.
End format_checks.

Lemma check_help_passes_iff_witness :
  check_help_from_ccx_notification_service (fun _ => []) (fun _ => [])
    (<["output" := ALines (lit "Usage:" :: expected_output)]> ∅) = Ok tt <->
  Forall (fun item => item ∈ lit "Usage:" :: expected_output) expected_output.
Proof.
  apply (proj1 (check_help_passes_iff (fun _ => []) (fun _ => [])
                  (<["output" := ALines (lit "Usage:" :: expected_output)]> ∅)
                  (lit "Usage:" :: expected_output)
                  (lookup_insert_eq _ _ _))).
Defined.

Lemma check_version_after_run_witness :
  let stdout := utf8_encode (lit "Notification service version 1.0" ++ [LF]) in
  let out := {| communicate := (Some stdout, None); returncode := 0 |} in
  let saved :=
    <["returncode" := AInt 0]>
      (<["stderr" := ANone]>
       (<["stdout" := ABytes stdout]>
        (<["output" := ALines [lit "Notification service version 1.0"; []]]>
           ∅))) in
  exists stdout text,
    communicate out = (Some stdout, None) /\
    utf8_encode text = stdout /\
    (check_version_from_ccx_notification_service (fun _ => []) (fun _ => [])
       saved = Ok tt <->
     is_line (lit "Notification service version 1.0") text) /\
    (check_authors_info_from_ccx_notification_service (fun _ => [])
       (fun _ => []) saved = Ok tt <->
     is_line (lit "Pavel Tisnovsky, Papa Bakary Camara, Red Hat Inc.") text).
Proof.
  intros stdout out saved.
  apply (check_version_after_run (fun _ => []) (fun _ => []) ∅ out
           [4; 5; 9]%Z saved).
  rewrite (process_ccx_notification_service_output_steps _ _ stdout)
    by reflexivity.
  reflexivity.
Defined.

Lemma check_status_code_after_run_witness :
  let out := {| communicate := (Some [x6f; x6b], None); returncode := 4 |} in
  let saved :=
    <["returncode" := AInt 4]>
      (<["stderr" := ANone]>
       (<["stdout" := ABytes [x6f; x6b]]>
        (<["output" := ALines [lit "ok"]]> ∅))) in
  (check_status_code (fun _ => []) (fun _ => []) saved 4 = Ok tt <->
   4%Z = returncode out) /\
  (4%Z <> returncode out ->
   exists stdout text,
     communicate out = (Some stdout, None) /\ utf8_encode text = stdout /\
     check_status_code (fun _ => []) (fun _ => []) saved 4 =
     Raise (AssertionError
              (lit "Return code is " ++ str_of_Z (returncode out)
               ++ lit ", but " ++ str_of_Z 4
               ++ lit " is expected. Check the logs:" ++ [LF] ++ text))).
Proof.
  intros out saved.
  apply (check_status_code_after_run (fun _ => []) (fun _ => []) ∅ out
           [4; 5; 9]%Z saved 4).
  rewrite (process_ccx_notification_service_output_steps _ _ [x6f; x6b])
    by reflexivity.
  reflexivity.
Defined.

Lemma check_status_code_after_generated_output_witness :
  check_status_code (fun _ => []) (fun _ => [])
    (<["return_code" := AInt 0]>
       (<["stderr" := ANone]>
        (<["stdout" := ABytes [x6f; x6b]]>
         (<["output" := ALines [lit "ok"]]> ∅)))) 0 =
  Raise AttributeError.
Proof.
  apply (check_status_code_after_generated_output (fun _ => []) (fun _ => [])
           ∅ {| communicate := (Some [x6f; x6b], None); returncode := 0 |}
           None).
  - apply lookup_empty.
  - rewrite (process_generated_output_steps _ _ [x6f; x6b]) by reflexivity.
    reflexivity.
Defined.

(** ** Storing a second run *)

Lemma insert4_overwrite (m : gmap string attr) (k1 k2 k3 k4 : string)
    (a1 a2 a3 a4 b1 b2 b3 b4 : attr) :
  <[k1 := a1]> (<[k2 := a2]> (<[k3 := a3]> (<[k4 := a4]>
    (<[k1 := b1]> (<[k2 := b2]> (<[k3 := b3]> (<[k4 := b4]> m))))))) =
  <[k1 := a1]> (<[k2 := a2]> (<[k3 := a3]> (<[k4 := a4]> m))).
Proof.
  apply map_eq. intros i. rewrite !lookup_insert.
  repeat case_decide; done.
Qed.

(** X8.  Each of the two operations that store the output of a process
    overwrites all it stored before: processing a second process on the
    context left by a first run gives the same outcome and the same context
    as processing it on the context before that run. *)
Theorem process_output_overwrites
    (context : gmap string attr) (out1 out2 : popen)
    (return_code1 return_code2 : option Z) (return_codes1 return_codes2 : list Z) :
  (forall saved,
     process_generated_output context (Some out1) return_code1 = Ok saved ->
     process_generated_output saved (Some out2) return_code2 =
     process_generated_output context (Some out2) return_code2) /\
  (forall saved,
     process_ccx_notification_service_output context (Some out1) return_codes1
       = Ok saved ->
     process_ccx_notification_service_output saved (Some out2) return_codes2 =
     process_ccx_notification_service_output context (Some out2) return_codes2).
Proof.
  split.
  - intros saved (stdout & text & Hc & Hd & ->)%process_generated_output_Ok.
    destruct (communicate out2) as [[stdout2|] [stderr2|]] eqn:Hc2;
      try (unfold process_generated_output; rewrite Hc2; done).
    rewrite !(process_generated_output_steps _ _ _ _ Hc2).
    destruct (_ && _); [done|].
    destruct (utf8_decode stdout2); [|done].
    by rewrite insert4_overwrite.
  - intros saved
      (stdout & text & Hc & Hd & ->)%process_ccx_notification_service_output_Ok.
    destruct (communicate out2) as [[stdout2|] [stderr2|]] eqn:Hc2;
      try (unfold process_ccx_notification_service_output; rewrite Hc2; done).
    rewrite !(process_ccx_notification_service_output_steps _ _ _ _ Hc2).
    destruct (utf8_decode stdout2); [|done].
    destruct (_ || _); [|done].
    by rewrite insert4_overwrite.
Qed.

Lemma process_output_overwrites_witness :
  let out1 := {| communicate := (Some [x6f; x6b], None); returncode := 0 |} in
  let out2 := {| communicate := (Some [x68; x69], None); returncode := 4 |} in
  process_generated_output
    (<["return_code" := AInt 0]>
       (<["stderr" := ANone]>
        (<["stdout" := ABytes [x6f; x6b]]>
         (<["output" := ALines [lit "ok"]]> ∅))))
    (Some out2) None =
  process_generated_output ∅ (Some out2) None.
Proof.
  intros out1 out2.
  apply (proj1 (process_output_overwrites ∅ out1 out2 None None [] [])).
  rewrite (process_generated_output_steps _ _ [x6f; x6b]) by reflexivity.
  reflexivity.
Defined.

(** ** Checks on the standard output *)

Ltac open_checks H :=
  let stdout := fresh "stdout" in
  let Hr := fresh "Hr" in
  apply bind_Ok in H as (stdout & Hr & H);
  repeat (let u := fresh "u" in
          let Ha := fresh "Ha" in
          apply bind_Ok in H as (u & Ha & H); destruct u).

(** X9.  The checks of a finished cleanup are stronger than the check of
    the cleaned items: when the step for cleaned up not notified reports
    passes, so does the step "It should clean items in new_reports table
    older than ..." for the same age, and when the step for cleaned up
    notified reports passes, so does that step for the table [reported] and
    the age written as number, space, unit. *)
Theorem cleanup_checks_imply_cleaned_items
    (context : gmap string attr) (age : str) (n : Z) (age_unit : str) :
  (check_new_reports_cleanup context age = Ok tt ->
   check_cleaned_items_on_standard_output context (lit "new_reports") age
   = Ok tt) /\
  (check_old_reports_cleanup context n age_unit = Ok tt ->
   check_cleaned_items_on_standard_output context (lit "reported")
     (str_of_Z n ++ lit " " ++ age_unit) = Ok tt).
Proof.
  unfold check_new_reports_cleanup, check_old_reports_cleanup,
    check_cleaned_items_on_standard_output.
  split; intros H; open_checks H; rewrite Hr; cbn [bind];
    rewrite Ha; cbn [bind];
    (apply bind_Ok; exists tt; split; [exact H | assumption]).
Qed.

Lemma cleanup_checks_imply_cleaned_items_witness :
  let context : gmap string attr :=
    <["stdout" :=
        ABytes (utf8_encode
                  (lit "Cleanup operation for all organizations" ++ [LF]
                   ++ lit "DELETE FROM new_reports WHERE age > 3 days" ++ [LF]
                   ++ lit "Cleanup `new_reports` finished"))]> ∅ in
  check_cleaned_items_on_standard_output context (lit "new_reports")
    (lit "3 days") = Ok tt.
Proof.
  intros context.
  apply (proj1 (cleanup_checks_imply_cleaned_items context (lit "3 days") 0 [])).
  by vm_compute.
Defined.

(** X10.  The two steps about old reports of a table exclude each other:
    on a context where "I should see old reports from ..." passes, "I should
    not see any old reports from ..." for the same table raises an
    assertion that shows the output. *)
Theorem old_reports_checks_exclusive
    (context : gmap string attr) (table : str)
    (rows : option (list cluster_row)) :
  check_old_reports_in_table context table rows = Ok tt ->
  exists stdout,
    read_stdout context = Ok stdout /\
    check_no_old_reports_in_table context table =
    Raise (AssertionError (lit "Caught output: " ++ stdout)).
Proof.
  unfold check_old_reports_in_table, check_no_old_reports_in_table.
  intros H. open_checks H. exists stdout. split; [done|].
  rewrite Hr. cbn [bind]. apply assert_in_Ok, str_contains_occurs in Ha.
  by rewrite Ha.
Qed.

Lemma old_reports_checks_exclusive_witness :
  let context : gmap string attr :=
    <["stdout" :=
        ABytes (utf8_encode
                  (lit "Old report from `reported` table" ++ [LF]
                   ++ lit "1 12345 c1"))]> ∅ in
  exists stdout,
    read_stdout context = Ok stdout /\
    check_no_old_reports_in_table context (lit "reported") =
    Raise (AssertionError (lit "Caught output: " ++ stdout)).
Proof.
  intros context.
  apply (old_reports_checks_exclusive context (lit "reported")
           (Some [ {| org_id := lit "1"; account_number := lit "12345";
                      cluster_name := lit "c1" |} ])).
  by vm_compute.
Defined.

(** ** Events read from the message bus *)

Lemma starts_with_brace_spec (i : str) :
  starts_with_brace i = true <-> exists rest, i = LBRACE :: rest.
Proof.
  destruct i as [|c i]; cbn [starts_with_brace].
  - split; [done | by intros [? ?]].
  - rewrite N.eqb_eq. split; [intros ->; by exists i | by intros [? [= -> _]]].
Qed.

(** X11.  What [get_events_kafka] returns.  When the output of the tool
    mentions an unknown topic or partition, no event at all, whatever else
    the output holds.  Otherwise the lines of the output that start with an
    opening brace, in the order of the output, and nothing else. *)
Theorem get_events_kafka_lines
    (run : list str -> option popen) (num_event : Z) (out : popen)
    (stdout : bytes) (output : str) :
  run (kafkacat_params num_event) = Some out ->
  (communicate out).1 = Some stdout ->
  utf8_decode stdout = Ok output ->
  (occurs (lit "Unknown topic or partition") output ->
   get_events_kafka run num_event = Ok []) /\
  (~ occurs (lit "Unknown topic or partition") output ->
   exists events,
     get_events_kafka run num_event = Ok events /\
     events `sublist_of` split_from [LF] 0 output /\
     forall e, e ∈ events <->
               is_line e output /\ exists rest, e = LBRACE :: rest).
Proof.
  intros Hr Hc Hd. unfold get_events_kafka. rewrite Hr.
  destruct (communicate out) as [so se]. cbn [fst] in Hc. subst so.
  cbn [attr_of_stream decode_attr]. rewrite Hd. cbn [bind]. split.
  - intros H%str_contains_occurs. by rewrite H.
  - intros H%not_occurs_search. rewrite H. cbn [str_split bind].
    eexists. split; [done|]. split; [apply sublist_filter|].
    intros e. by rewrite list_elem_of_filter, starts_with_brace_spec,
      elem_of_split_lines, (and_comm (is_line e output)).
Qed.

Lemma get_events_kafka_lines_witness :
  let stdout :=
    utf8_encode (lit "% Reached end" ++ [LF] ++ lit "{}" ++ [LF]) in
  let run := fun _ : list str =>
    Some {| communicate := (Some stdout, None); returncode := 0 |} in
  (occurs (lit "Unknown topic or partition")
     (lit "% Reached end" ++ [LF] ++ lit "{}" ++ [LF]) ->
   get_events_kafka run 1 = Ok []) /\
  (~ occurs (lit "Unknown topic or partition")
       (lit "% Reached end" ++ [LF] ++ lit "{}" ++ [LF]) ->
   exists events,
     get_events_kafka run 1 = Ok events /\
     events `sublist_of`
       split_from [LF] 0 (lit "% Reached end" ++ [LF] ++ lit "{}" ++ [LF]) /\
     forall e, e ∈ events <->
               is_line e (lit "% Reached end" ++ [LF] ++ lit "{}" ++ [LF]) /\
               exists rest, e = LBRACE :: rest).
Proof.
  intros stdout run.
  apply (get_events_kafka_lines run 1
           {| communicate := (Some stdout, None); returncode := 0 |} stdout);
    reflexivity.
Defined.

(** X12.  When the output of the tool mentions an unknown topic or
    partition, the count of the events sent passes exactly when no event
    was expected. *)
Theorem count_notification_events_kafka_unknown_topic
    (run : list str -> option popen) (num_event : Z) (out : popen)
    (stdout : bytes) (output : str) :
  run (kafkacat_params num_event) = Some out ->
  (communicate out).1 = Some stdout ->
  utf8_decode stdout = Ok output ->
  occurs (lit "Unknown topic or partition") output ->
  count_notification_events_kafka run num_event = Ok tt <-> num_event = 0%Z.
Proof.
  intros Hr Hc Hd Ho. unfold count_notification_events_kafka.
  destruct (get_events_kafka_lines run num_event out stdout output Hr Hc Hd)
    as [H _].
  rewrite (H Ho). cbn [bind length]. rewrite assert_Ok, Z.eqb_eq.
  cbn [Z.of_nat]. lia.
Qed.

Lemma count_notification_events_kafka_unknown_topic_witness :
  let stdout :=
    utf8_encode (lit "Unknown topic or partition" ++ [LF] ++ lit "{}") in
  let run := fun _ : list str =>
    Some {| communicate := (Some stdout, None); returncode := 1 |} in
  count_notification_events_kafka run 0 = Ok tt <-> 0%Z = 0%Z.
Proof.
  intros stdout run.
  apply (count_notification_events_kafka_unknown_topic run 0
           {| communicate := (Some stdout, None); returncode := 1 |} stdout
           (lit "Unknown topic or partition" ++ [LF] ++ lit "{}"));
    [reflexivity | reflexivity | reflexivity |].
  by exists [], ([LF] ++ lit "{}").
Defined.

(** ** Starting the service *)

Lemma foldl_insert_absent (rows : list env_row) (env : gmap str str) (k : str) :
  (forall r, r ∈ rows -> val r <> k) ->
  foldl (fun env row => <[val row := var row]> env) env rows !! k = env !! k.
Proof.
  revert env. induction rows as [|r rows IH]; intros env H; [done|].
  cbn [foldl]. rewrite IH.
  - apply lookup_insert_ne, H. by left.
  - intros r' Hr'. apply H. by right.
Qed.

(** X13.  The environment of the started service is the inherited one
    overlaid with the table of the step: a variable the table does not name
    keeps its inherited value (or stays unset), and a variable the table
    names has the value of the last row that names it. *)
Theorem start_env_overlay (environ : gmap str str) (rows : list env_row) :
  (forall k, (forall r, r ∈ rows -> val r <> k) ->
             start_env environ (Some rows) !! k = environ !! k) /\
  (forall before r after,
     rows = before ++ r :: after ->
     (forall r', r' ∈ after -> val r' <> val r) ->
     start_env environ (Some rows) !! val r = Some (var r)).
Proof.
  cbn [start_env]. split.
  - intros k. apply foldl_insert_absent.
  - intros before r after -> Ha.
    rewrite foldl_app. cbn [foldl].
    rewrite foldl_insert_absent by done. apply lookup_insert_eq.
Qed.

Lemma start_env_overlay_witness :
  start_env ∅ (Some ([ {| val := lit "A"; var := lit "1" |} ]
                     ++ {| val := lit "A"; var := lit "2" |} :: []))
    !! lit "A" = Some (lit "2").
Proof.
  apply (proj2 (start_env_overlay ∅
                  ([ {| val := lit "A"; var := lit "1" |} ]
                   ++ {| val := lit "A"; var := lit "2" |} :: []))
           [ {| val := lit "A"; var := lit "1" |} ]
           {| val := lit "A"; var := lit "2" |} [] eq_refl).
  intros r' Hr'. by apply not_elem_of_nil in Hr'.
Defined.

(** X14.  Starting the service accepts the exit code 0 and the return
    codes configured on the context, which are 4, 5 and 9 when the scenario
    configured none; the codes in effect are left on the context, whether
    the start passes or not. *)
Theorem start_accepts_configured_codes
    (spawn : list str -> gmap str str -> option popen)
    (environ : gmap str str) (context : scenario) (flag : str)
    (table : option (list env_row)) (out : popen) (stdout : bytes)
    (text : str) :
  spawn (start_params context flag) (start_env environ table) = Some out ->
  communicate out = (Some stdout, None) ->
  utf8_decode stdout = Ok text ->
  let codes := match return_codes context with
               | Some codes => codes
               | None => [4; 5; 9]%Z
               end in
  let after :=
    start_ccx_notification_service_with_flag spawn environ context flag table in
  (after.2 = Ok tt <-> returncode out = 0%Z \/ returncode out ∈ codes) /\
  return_codes after.1 = Some codes /\
  (start_ccx_notification_service_with_flag spawn environ after.1 flag table).2
    = after.2.
Proof.
  intros Hs Hc Hd codes after. subst after codes.
  unfold start_ccx_notification_service_with_flag.
  rewrite Hs, (process_ccx_notification_service_output_steps _ _ _ _ Hc), Hd.
  destruct ((returncode out =? 0)%Z || _) eqn:E; cbn [fst snd return_codes].
  - split; [|split; [done|]].
    + split; [intros _ | done].
      apply orb_true_iff in E as [E%Z.eqb_eq | E%bool_decide_eq_true]; auto.
    + unfold start_params. cbn [max_age cleanup_on_startup attrs].
      fold (start_params context flag).
      rewrite Hs, (process_ccx_notification_service_output_steps _ _ _ _ Hc), Hd.
      by rewrite E.
  - split; [|split; [done|]].
    + split; [done|]. apply orb_false_iff in E as [E1%Z.eqb_neq E2].
      apply bool_decide_eq_false in E2. tauto.
    + unfold start_params. cbn [max_age cleanup_on_startup attrs].
      fold (start_params context flag).
      rewrite Hs, (process_ccx_notification_service_output_steps _ _ _ _ Hc), Hd.
      by rewrite E.
Qed.

Lemma start_accepts_configured_codes_witness :
  let out := {| communicate := (Some [x6f; x6b], None); returncode := 5 |} in
  let spawn := fun (_ : list str) (_ : gmap str str) => Some out in
  let context := {| attrs := ∅; max_age := None; cleanup_on_startup := None;
                    return_codes := None |} in
  let after :=
    start_ccx_notification_service_with_flag spawn ∅ context
      (lit "--instant-reports") None in
  (after.2 = Ok tt <-> returncode out = 0%Z \/ returncode out ∈ [4; 5; 9]%Z) /\
  return_codes after.1 = Some [4; 5; 9]%Z /\
  (start_ccx_notification_service_with_flag spawn ∅ after.1
     (lit "--instant-reports") None).2 = after.2.
Proof.
  intros out spawn context after.
  apply (start_accepts_configured_codes spawn ∅ context
           (lit "--instant-reports") None out [x6f; x6b] (lit "ok"));
    reflexivity.
Defined.

(** ** More output never breaks a search *)

Lemma replace_char_app (c : codepoint) (new a b : str) :
  replace_from [c] new 0 (a ++ b) =
  replace_from [c] new 0 a ++ replace_from [c] new 0 b.
Proof.
  induction a as [|x a IH]; [done|].
  rewrite <- app_comm_cons. cbn [replace_from startswith length Nat.sub].
  destruct (c =? x); cbn [andb]; rewrite IH; [by rewrite app_assoc | done].
Qed.

Lemma read_stdout_encoded (context : gmap string attr) (text : str) :
  context !! "stdout" = Some (ABytes (utf8_encode text)) ->
  Forall scalar_value text ->
  read_stdout context = Ok (replace_from [TAB] (lit "    ") 0 text).
Proof.
  intros Hs Ht. unfold read_stdout, get_attr. rewrite Hs.
  cbn [bind is_None negb assert decode_attr].
  by rewrite utf8_decode_encode.
Qed.

Lemma occurs_app_mono (needle pre s post : str) :
  occurs needle s -> occurs needle (pre ++ s ++ post).
Proof.
  intros (u & v & ->). exists (pre ++ u), (v ++ post).
  by rewrite <- !app_assoc.
Qed.

Lemma assert_in_mono (needle pre s post : str) :
  assert_in needle s = Ok tt -> assert_in needle (pre ++ s ++ post) = Ok tt.
Proof. rewrite !assert_in_Ok. apply occurs_app_mono. Qed.

Lemma assert_clusters_in_mono (rows : list cluster_row) (pre s post : str) :
  assert_clusters_in s rows = Ok tt ->
  assert_clusters_in (pre ++ s ++ post) rows = Ok tt.
Proof.
  induction rows as [|r rows IH]; [done|]. cbn [assert_clusters_in].
  intros H. repeat (apply bind_Ok in H as ([] & ?%(assert_in_mono _ pre _ post) & H)).
  repeat (apply bind_Ok; exists tt; split; [done|]). by apply IH.
Qed.

Ltac more_output pre post :=
  let H := fresh "H" in
  intros H;
  repeat (apply bind_Ok in H as ([] & ?%(assert_in_mono _ pre _ post) & H));
  repeat (apply bind_Ok; exists tt; split; [done|]);
  try (by apply assert_in_mono).

(** X15.  The steps that look for texts in the standard output keep
    passing when the process prints more: if such a step passes on an
    output, it passes on every output that holds the same text with
    anything before and after it. *)
Theorem checks_tolerate_more_output
    (context context' : gmap string attr) (pre text post : str) :
  Forall scalar_value pre -> Forall scalar_value text ->
  Forall scalar_value post ->
  context !! "stdout" = Some (ABytes (utf8_encode text)) ->
  context' !! "stdout" = Some (ABytes (utf8_encode (pre ++ text ++ post))) ->
  (forall age,
     check_print_new_reports_for_cleanup context age = Ok tt ->
     check_print_new_reports_for_cleanup context' age = Ok tt) /\
  (forall age,
     check_new_reports_cleanup context age = Ok tt ->
     check_new_reports_cleanup context' age = Ok tt) /\
  (forall n age_unit,
     check_print_old_reports_for_cleanup context n age_unit = Ok tt ->
     check_print_old_reports_for_cleanup context' n age_unit = Ok tt) /\
  (forall n age_unit,
     check_old_reports_cleanup context n age_unit = Ok tt ->
     check_old_reports_cleanup context' n age_unit = Ok tt) /\
  (forall table rows,
     check_old_reports_in_table context table rows = Ok tt ->
     check_old_reports_in_table context' table rows = Ok tt) /\
  (forall table age,
     check_cleaned_items_on_standard_output context table age = Ok tt ->
     check_cleaned_items_on_standard_output context' table age = Ok tt).
Proof.
  intros Hpre Htext Hpost Hc Hc'.
  assert (Hall : Forall scalar_value (pre ++ text ++ post))
    by (rewrite !Forall_app; tauto).
  unfold check_print_new_reports_for_cleanup, check_new_reports_cleanup,
    check_print_old_reports_for_cleanup, check_old_reports_cleanup,
    check_old_reports_in_table, check_cleaned_items_on_standard_output.
  rewrite (read_stdout_encoded _ _ Hc Htext), (read_stdout_encoded _ _ Hc' Hall).
  rewrite !replace_char_app. cbn [bind].
  set (p := replace_from [TAB] (lit "    ") 0 pre).
  set (q := replace_from [TAB] (lit "    ") 0 post).
  split; [|split; [|split; [|split; [|split]]]].
  - intros age. more_output p q.
  - intros age. more_output p q.
  - intros n age_unit. more_output p q.
  - intros n age_unit. more_output p q.
  - intros table [rows|].
    + more_output p q. by apply assert_clusters_in_mono.
    + intros H. by apply bind_Ok in H as (? & _ & H).
  - intros table age. more_output p q.
Qed.

Lemma checks_tolerate_more_output_witness :
  let text := lit "PrintReportsForCleanup operation FROM new_reports 3 days" in
  let context : gmap string attr :=
    <["stdout" := ABytes (utf8_encode text)]> ∅ in
  let context' : gmap string attr :=
    <["stdout" := ABytes (utf8_encode (lit "log: " ++ text ++ [LF]))]> ∅ in
  check_print_new_reports_for_cleanup context' (lit "3 days") = Ok tt.
Proof.
  intros text context context'.
  refine (proj1 (checks_tolerate_more_output context context'
                   (lit "log: ") text [LF] _ _ _ _ _) (lit "3 days") _).
  - apply (bool_decide_unpack _). by vm_compute.
  - apply (bool_decide_unpack _). by vm_compute.
  - apply (bool_decide_unpack _). by vm_compute.
  - apply lookup_insert_eq.
  - apply lookup_insert_eq.
  - by vm_compute.
Defined.

(** X16.  The line filter of [process_generated_output] is idempotent:
    filtering the lines it returned removes nothing more (unlike the filter
    on the text, which a second pass can change). *)
Theorem normalize_line_sequence_idempotent (output : list str) :
  normalize_line_sequence (normalize_line_sequence output) =
  normalize_line_sequence output.
Proof.
  induction output as [|line output IH]; [done|].
  rewrite (normalize_line_sequence_cons line).
  destruct (decide (line = COVERAGE_MESSAGE)) as [|Hne]; [done|].
  rewrite normalize_line_sequence_cons.
  destruct (decide (line = COVERAGE_MESSAGE)); [done|]. by rewrite IH.
Qed.
